(** * Authors, magazines and articles: a model of [lib/classes/many_to_many.py]

    The three classes [Article], [Author] and [Magazine] are embedded over an
    explicit object store.  An object is identified by its address, the
    class-level lists [Article.all], [Author.all] and [Magazine.all] hold
    addresses, and every method is a computation in a small state-and-exception
    monad, so that what a raising call leaves behind is part of its result. *)

From Stdlib Require Import ZArith String.
From stdpp Require Import base list gmap strings.

(** ** Values and objects *)

(** Addresses give objects their identity: Python's default [==] and [hash]
    on instances of the three classes (none overrides them) are both by
    identity. *)
Abbreviation addr := nat.

(** The arguments a caller may pass: the program is dynamically typed and
    checks its arguments with [isinstance]. *)
Inductive value : Type :=
| VNone
| VBool (b : bool)
| VInt (z : Z)
| VStr (s : string)
| VRef (a : addr).

Inductive class : Type := CArticle | CAuthor | CMagazine.

Global Instance class_eq_dec : EqDecision class.
Proof. solve_decision. Defined.

(** The private attributes of an instance.  Every attribute is written only
    after the guard on its value has passed, so a name, category or title is
    kept as the string it is and an author or magazine as the address of the
    instance. *)
Inductive obj : Type :=
| OAuthor (_name : string)
| OMagazine (_name _category : string)
| OArticle (_title : string) (_author _magazine : addr).

Definition class_of (o : obj) : class :=
  match o with
  | OAuthor _ => CAuthor
  | OMagazine _ _ => CMagazine
  | OArticle _ _ _ => CArticle
  end.

(** The store and the three class attributes [all]. *)
Record state : Type := mkState {
  heap : list obj;
  Article_all : list addr;
  Author_all : list addr;
  Magazine_all : list addr
}.

Definition initial : state := mkState [] [] [] [].

(** ** Exceptions and the monad *)

(** The guards of the program raise the builtin [Exception] with a message;
    the other kinds are the interpreter's own. *)
Inductive exn : Type :=
| Exception (msg : string)
| AttributeError (msg : string)
| ValueError (msg : string).

Inductive outcome (A : Type) : Type :=
| Ret (a : A)
| Raise (e : exn).
Arguments Ret {A} a.
Arguments Raise {A} e.

Definition M (A : Type) : Type := state → outcome A * state.

Definition ret {A} (a : A) : M A := λ st, (Ret a, st).
Definition raise {A} (e : exn) : M A := λ st, (Raise e, st).
Definition bind {A B} (c : M A) (k : A → M B) : M B :=
  λ st, match c st with
        | (Ret a, st') => k a st'
        | (Raise e, st') => (Raise e, st')
        end.

Declare Scope py_scope.
Delimit Scope py_scope with py.
Notation "x <- c ;; k" := (bind c (λ x, k))
  (at level 100, c at next level, right associativity) : py_scope.
Notation "c ;;; k" := (bind c (λ _, k))
  (at level 100, right associativity) : py_scope.
Open Scope py_scope.

Definition read {A} (f : state → A) : M A := λ st, (Ret (f st), st).

(** A new instance takes the next free address. *)
Definition alloc (o : obj) : M addr :=
  λ st, (Ret (length (heap st)),
         mkState (heap st ++ [o]) (Article_all st) (Author_all st) (Magazine_all st)).

(** Attribute assignment on an existing instance. *)
Definition store (a : addr) (o : obj) : M unit :=
  λ st, (Ret tt,
         mkState (<[a:=o]> (heap st)) (Article_all st) (Author_all st) (Magazine_all st)).

Definition Article_all_append (a : addr) : M unit :=
  λ st, (Ret tt, mkState (heap st) (Article_all st ++ [a]) (Author_all st) (Magazine_all st)).
Definition Author_all_append (a : addr) : M unit :=
  λ st, (Ret tt, mkState (heap st) (Article_all st) (Author_all st ++ [a]) (Magazine_all st)).
Definition Magazine_all_append (a : addr) : M unit :=
  λ st, (Ret tt, mkState (heap st) (Article_all st) (Author_all st) (Magazine_all st ++ [a])).

(** [isinstance(v, C)] for one of the three classes: the address of the
    instance when [v] is one, [None] when the test is false. *)
Definition instance_of (c : class) (v : value) (h : list obj) : option addr :=
  match v with
  | VRef a =>
      match h !! a with
      | Some o => if decide (class_of o = c) then Some a else None
      | None => None
      end
  | _ => None
  end.

Definition isinstance (v : value) (c : class) : M (option addr) :=
  read (λ st, instance_of c v (heap st)).

(** [len(s)]: a string is the sequence of its characters. *)
Definition len (s : string) : Z := Z.of_nat (String.length s).

(** ** Loops, comprehensions, dictionaries *)

(** [for x in l: acc = body(acc, x)]. *)
Fixpoint for_each {A B} (l : list A) (body : B → A → M B) (acc : B) : M B :=
  match l with
  | [] => ret acc
  | x :: l' => acc' <- body acc x ;; for_each l' body acc'
  end.

(** [[elt(x) for x in l if cond(x)]]. *)
Fixpoint list_comp {A B} (l : list A) (cond : A → M bool) (elt : A → M B) : M (list B) :=
  match l with
  | [] => ret []
  | x :: l' =>
      b <- cond x ;;
      if b then y <- elt x ;; ys <- list_comp l' cond elt ;; ret (y :: ys)
      else list_comp l' cond elt
  end.

(** A [dict] with integer values.  Python dictionaries iterate in insertion
    order and assigning to a key already present keeps its place, so the
    dictionary is the list of its items. *)
Definition dict (K : Type) : Type := list (K * Z).

Fixpoint dict_get `{EqDecision K} (d : dict K) (k : K) (default : Z) : Z :=
  match d with
  | [] => default
  | (k', v) :: d' => if decide (k' = k) then v else dict_get d' k default
  end.

Fixpoint dict_set `{EqDecision K} (d : dict K) (k : K) (v : Z) : dict K :=
  match d with
  | [] => [(k, v)]
  | (k', v') :: d' =>
      if decide (k' = k) then (k', v) :: d' else (k', v') :: dict_set d' k v
  end.

(** [max(items, key=...)]: the first item is kept until a later one has a
    strictly greater key. *)
Fixpoint max_from {A} (key : A → Z) (best : A) (l : list A) : A :=
  match l with
  | [] => best
  | x :: l' => if (key best <? key x)%Z then max_from key x l' else max_from key best l'
  end.

Definition py_max {A} (key : A → Z) (l : list A) : M A :=
  match l with
  | [] => raise (ValueError "max() arg is an empty sequence")
  | x :: l' => ret (max_from key x l')
  end.

(** Methods are called on instances of their own class.  Reading the
    attributes of [self] at an address that holds no such instance does not
    happen in the program; the model raises [AttributeError] there. *)
Definition article_at (self : addr) : M (string * addr * addr) :=
  h <- read heap ;;
  match h !! self with
  | Some (OArticle t a m) => ret (t, a, m)
  | _ => raise (AttributeError "not an Article")
  end.

Definition author_at (self : addr) : M string :=
  h <- read heap ;;
  match h !! self with
  | Some (OAuthor n) => ret n
  | _ => raise (AttributeError "not an Author")
  end.

Definition magazine_at (self : addr) : M (string * string) :=
  h <- read heap ;;
  match h !! self with
  | Some (OMagazine n c) => ret (n, c)
  | _ => raise (AttributeError "not a Magazine")
  end.

(** ** class Article *)
Module Article.

Definition __init__ (author magazine title : value) : M addr :=
  oa <- isinstance author CAuthor ;;
  match oa with
  | None => raise (Exception "Author must be an instance of Author class")
  | Some a =>
      om <- isinstance magazine CMagazine ;;
      match om with
      | None => raise (Exception "Magazine must be an instance of Magazine class")
      | Some m =>
          match title with
          | VStr t =>
              if negb ((5 <=? len t)%Z && (len t <=? 50)%Z)
              then raise (Exception "Title must be between 5 and 50 characters inclusive")
              else
                self <- alloc (OArticle t a m) ;;
                Article_all_append self ;;;
                ret self
          | _ => raise (Exception "Title must be a string")
          end
      end
  end.

Definition title (self : addr) : M string :=
  o <- article_at self ;; let '(t, _, _) := o in ret t.

(** [title] is a property without a setter: assigning to it is refused by
    the interpreter. *)
Definition set_title (self : addr) (new_title : value) : M unit :=
  raise (AttributeError "property 'title' of 'Article' object has no setter").

Definition author (self : addr) : M addr :=
  o <- article_at self ;; let '(_, a, _) := o in ret a.

Definition set_author (self : addr) (new_author : value) : M unit :=
  oa <- isinstance new_author CAuthor ;;
  match oa with
  | None => raise (Exception "Author must be an instance of Author class")
  | Some a =>
      o <- article_at self ;; let '(t, _, m) := o in store self (OArticle t a m)
  end.

Definition magazine (self : addr) : M addr :=
  o <- article_at self ;; let '(_, _, m) := o in ret m.

Definition set_magazine (self : addr) (new_magazine : value) : M unit :=
  om <- isinstance new_magazine CMagazine ;;
  match om with
  | None => raise (Exception "Magazine must be an instance of Magazine class")
  | Some m =>
      o <- article_at self ;; let '(t, a, _) := o in store self (OArticle t a m)
  end.

End Article.

(** ** class Author *)
Module Author.

Definition __init__ (name : value) : M addr :=
  match name with
  | VStr n =>
      if (len n <=? 0)%Z
      then raise (Exception "Name must be longer than 0 characters")
      else
        self <- alloc (OAuthor n) ;;
        Author_all_append self ;;;
        ret self
  | _ => raise (Exception "Name must be a string")
  end.

Definition name (self : addr) : M string := author_at self.

(** [name] is a property without a setter. *)
Definition set_name (self : addr) (new_name : value) : M unit :=
  raise (AttributeError "property 'name' of 'Author' object has no setter").

Definition articles (self : addr) : M (list addr) :=
  all <- read Article_all ;;
  list_comp all
    (λ article, a <- Article.author article ;; ret (bool_decide (a = self)))
    (λ article, ret article).

(** [set(...)] of instances is a finite set of addresses; [list(...)] of it
    enumerates the set in the set's own order. *)
Definition magazines (self : addr) : M (list addr) :=
  arts <- articles self ;;
  ms <- list_comp arts (λ _, ret true) Article.magazine ;;
  let unique_magazines : gset addr := list_to_set ms in
  ret (elements unique_magazines).

Definition add_article (self : addr) (magazine title : value) : M addr :=
  om <- isinstance magazine CMagazine ;;
  match om with
  | None => raise (Exception "Magazine must be an instance of Magazine class")
  | Some _ =>
      new_article <- Article.__init__ (VRef self) magazine title ;;
      ret new_article
  end.

Definition topic_areas (self : addr) : M (option (list string)) :=
  arts <- articles self ;;
  match arts with
  | [] => ret None
  | _ =>
      arts' <- articles self ;;
      cs <- list_comp arts' (λ _, ret true)
              (λ article,
                 m <- Article.magazine article ;;
                 nc <- magazine_at m ;;
                 ret nc.2) ;;
      let unique_categories : gset string := list_to_set cs in
      ret (Some (elements unique_categories))
  end.

End Author.

(** ** class Magazine *)
Module Magazine.

Definition __init__ (name category : value) : M addr :=
  match name with
  | VStr n =>
      if negb ((2 <=? len n)%Z && (len n <=? 16)%Z)
      then raise (Exception "Name must be between 2 and 16 characters inclusive")
      else
        match category with
        | VStr c =>
            if (len c <=? 0)%Z
            then raise (Exception "Category must be longer than 0 characters")
            else
              self <- alloc (OMagazine n c) ;;
              Magazine_all_append self ;;;
              ret self
        | _ => raise (Exception "Category must be a string")
        end
  | _ => raise (Exception "Name must be a string")
  end.

Definition name (self : addr) : M string :=
  nc <- magazine_at self ;; ret nc.1.

Definition set_name (self : addr) (new_name : value) : M unit :=
  match new_name with
  | VStr n =>
      if negb ((2 <=? len n)%Z && (len n <=? 16)%Z)
      then raise (Exception "Name must be between 2 and 16 characters inclusive")
      else nc <- magazine_at self ;; store self (OMagazine n nc.2)
  | _ => raise (Exception "Name must be a string")
  end.

Definition category (self : addr) : M string :=
  nc <- magazine_at self ;; ret nc.2.

Definition set_category (self : addr) (new_category : value) : M unit :=
  match new_category with
  | VStr c =>
      if (len c <=? 0)%Z
      then raise (Exception "Category must be longer than 0 characters")
      else nc <- magazine_at self ;; store self (OMagazine nc.1 c)
  | _ => raise (Exception "Category must be a string")
  end.

Definition articles (self : addr) : M (list addr) :=
  all <- read Article_all ;;
  list_comp all
    (λ article, m <- Article.magazine article ;; ret (bool_decide (m = self)))
    (λ article, ret article).

Definition contributors (self : addr) : M (list addr) :=
  arts <- articles self ;;
  auths <- list_comp arts (λ _, ret true) Article.author ;;
  let unique_authors : gset addr := list_to_set auths in
  ret (elements unique_authors).

Definition article_titles (self : addr) : M (option (list string)) :=
  articles_list <- articles self ;;
  match articles_list with
  | [] => ret None
  | _ => ts <- list_comp articles_list (λ _, ret true) Article.title ;; ret (Some ts)
  end.

Definition contributing_authors (self : addr) : M (option (list addr)) :=
  arts <- articles self ;;
  author_counts <-
    for_each arts
      (λ author_counts article,
         author <- Article.author article ;;
         ret (dict_set author_counts author (dict_get author_counts author 0 + 1)%Z))
      [] ;;
  prolific_authors <-
    list_comp author_counts (λ item, ret (2 <? item.2)%Z) (λ item, ret item.1) ;;
  match prolific_authors with
  | [] => ret None
  | _ => ret (Some prolific_authors)
  end.

Definition top_publisher : M (option addr) :=
  all <- read Article_all ;;
  match all with
  | [] => ret None
  | _ =>
      magazine_counts <-
        for_each all
          (λ magazine_counts article,
             magazine <- Article.magazine article ;;
             ret (dict_set magazine_counts magazine
                    (dict_get magazine_counts magazine 0 + 1)%Z))
          [] ;;
      match magazine_counts with
      | [] => ret None
      | _ =>
          top <- py_max (λ x : addr * Z, x.2) magazine_counts ;;
          ret (Some top.1)
      end
  end.

End Magazine.

(** ** The public operations, as a caller issues them *)

Inductive op : Type :=
| NewArticle (author magazine title : value)
| GetArticleTitle (self : addr)
| SetArticleTitle (self : addr) (v : value)
| GetArticleAuthor (self : addr)
| SetArticleAuthor (self : addr) (v : value)
| GetArticleMagazine (self : addr)
| SetArticleMagazine (self : addr) (v : value)
| NewAuthor (name : value)
| GetAuthorName (self : addr)
| SetAuthorName (self : addr) (v : value)
| AuthorArticles (self : addr)
| AuthorMagazines (self : addr)
| AuthorAddArticle (self : addr) (magazine title : value)
| AuthorTopicAreas (self : addr)
| NewMagazine (name category : value)
| GetMagazineName (self : addr)
| SetMagazineName (self : addr) (v : value)
| GetMagazineCategory (self : addr)
| SetMagazineCategory (self : addr) (v : value)
| MagazineArticles (self : addr)
| MagazineContributors (self : addr)
| MagazineArticleTitles (self : addr)
| MagazineContributingAuthors (self : addr)
| MagazineTopPublisher.

(** What an operation hands back to its caller. *)
Inductive retv : Type :=
| RNone
| RStr (s : string)
| RRef (a : addr)
| RRefs (l : list addr)
| RStrs (l : list string).

Definition fmap_m {A B} (f : A → B) (c : M A) : M B := a <- c ;; ret (f a).

Definition opt_retv {A} (f : A → retv) (o : option A) : retv :=
  match o with Some a => f a | None => RNone end.

Definition step (o : op) : M retv :=
  match o with
  | NewArticle a m t => fmap_m RRef (Article.__init__ a m t)
  | GetArticleTitle self => fmap_m RStr (Article.title self)
  | SetArticleTitle self v => fmap_m (λ _, RNone) (Article.set_title self v)
  | GetArticleAuthor self => fmap_m RRef (Article.author self)
  | SetArticleAuthor self v => fmap_m (λ _, RNone) (Article.set_author self v)
  | GetArticleMagazine self => fmap_m RRef (Article.magazine self)
  | SetArticleMagazine self v => fmap_m (λ _, RNone) (Article.set_magazine self v)
  | NewAuthor n => fmap_m RRef (Author.__init__ n)
  | GetAuthorName self => fmap_m RStr (Author.name self)
  | SetAuthorName self v => fmap_m (λ _, RNone) (Author.set_name self v)
  | AuthorArticles self => fmap_m RRefs (Author.articles self)
  | AuthorMagazines self => fmap_m RRefs (Author.magazines self)
  | AuthorAddArticle self m t => fmap_m RRef (Author.add_article self m t)
  | AuthorTopicAreas self => fmap_m (opt_retv RStrs) (Author.topic_areas self)
  | NewMagazine n c => fmap_m RRef (Magazine.__init__ n c)
  | GetMagazineName self => fmap_m RStr (Magazine.name self)
  | SetMagazineName self v => fmap_m (λ _, RNone) (Magazine.set_name self v)
  | GetMagazineCategory self => fmap_m RStr (Magazine.category self)
  | SetMagazineCategory self v => fmap_m (λ _, RNone) (Magazine.set_category self v)
  | MagazineArticles self => fmap_m RRefs (Magazine.articles self)
  | MagazineContributors self => fmap_m RRefs (Magazine.contributors self)
  | MagazineArticleTitles self => fmap_m (opt_retv RStrs) (Magazine.article_titles self)
  | MagazineContributingAuthors self =>
      fmap_m (opt_retv RRefs) (Magazine.contributing_authors self)
  | MagazineTopPublisher => fmap_m (opt_retv RRef) Magazine.top_publisher
  end.

(** A caller that catches an exception goes on from the state the raising
    call left. *)
Definition run (ops : list op) (st : state) : state :=
  fold_left (λ s o, (step o s).2) ops st.

(** The states of a process: those some sequence of operations leads to from
    the three empty lists. *)
Definition reachable (st : state) : Prop := ∃ ops, run ops initial = st.

(** ** Reading the store *)

Definition author_of (st : state) (r : addr) : option addr :=
  match heap st !! r with Some (OArticle _ a _) => Some a | _ => None end.

Definition magazine_of (st : state) (r : addr) : option addr :=
  match heap st !! r with Some (OArticle _ _ m) => Some m | _ => None end.

Definition title_of (st : state) (r : addr) : option string :=
  match heap st !! r with Some (OArticle t _ _) => Some t | _ => None end.

Definition name_of (st : state) (m : addr) : option string :=
  match heap st !! m with Some (OMagazine n _) => Some n | _ => None end.

Definition category_of (st : state) (m : addr) : option string :=
  match heap st !! m with Some (OMagazine _ c) => Some c | _ => None end.

(** The number of articles of the registry that name magazine [m]. *)
Definition article_count (st : state) (m : addr) : Z :=
  Z.of_nat (length (filter (λ r, magazine_of st r = Some m) (Article_all st))).

(** The number of articles of the registry that name magazine [m] and
    author [a]. *)
Definition author_count (st : state) (m a : addr) : Z :=
  Z.of_nat (length (filter (λ r, magazine_of st r = Some m ∧ author_of st r = Some a)
                      (Article_all st))).

(** ** The invariant of the store *)

Definition is_a (c : class) (h : list obj) (a : addr) : Prop :=
  ∃ o, h !! a = Some o ∧ class_of o = c.

Definition obj_ok (h : list obj) (o : obj) : Prop :=
  match o with
  | OAuthor n => (0 < len n)%Z
  | OMagazine n c => (2 ≤ len n ≤ 16)%Z ∧ (0 < len c)%Z
  | OArticle t a m => (5 ≤ len t ≤ 50)%Z ∧ is_a CAuthor h a ∧ is_a CMagazine h m
  end.

Definition registry (c : class) (st : state) : list addr :=
  match c with
  | CArticle => Article_all st
  | CAuthor => Author_all st
  | CMagazine => Magazine_all st
  end.

(** Every instance is in the list of its class exactly once, the lists hold
    nothing else, and every instance satisfies the guards of its class. *)
Record wf (st : state) : Prop := mkWf {
  wf_nodup : ∀ c, NoDup (registry c st);
  wf_reg : ∀ c a, a ∈ registry c st ↔ is_a c (heap st) a;
  wf_obj : ∀ a o, heap st !! a = Some o → obj_ok (heap st) o
}.

(** The three ways an operation can leave the state: as it was, with one new
    registered instance, or with the attributes of one instance rewritten
    (the title of an article never). *)
Definition register (c : class) (a : addr) (st : state) : state :=
  match c with
  | CArticle => mkState (heap st) (Article_all st ++ [a]) (Author_all st) (Magazine_all st)
  | CAuthor => mkState (heap st) (Article_all st) (Author_all st ++ [a]) (Magazine_all st)
  | CMagazine => mkState (heap st) (Article_all st) (Author_all st) (Magazine_all st ++ [a])
  end.

Definition obj_title (o : obj) : option string :=
  match o with OArticle t _ _ => Some t | _ => None end.

Inductive effect (st : state) : state → Prop :=
| eff_none : effect st st
| eff_new o :
    obj_ok (heap st) o →
    effect st (register (class_of o) (length (heap st)) (alloc o st).2)
| eff_set a o o' :
    heap st !! a = Some o → class_of o' = class_of o → obj_ok (heap st) o' →
    obj_title o' = obj_title o →
    effect st (store a o' st).2.

(** [c] answers [v] in [st] and leaves [st] as it is. *)
Definition returns {A} (st : state) (c : M A) (v : A) : Prop := c st = (Ret v, st).

(** [c] never writes to the state, whatever it answers. *)
Definition pure_m {A} (c : M A) : Prop := ∀ st, (c st).2 = st.

(** [c] leaves the state as it was whenever it raises. *)
Definition atomic {A} (c : M A) : Prop := ∀ st e, (c st).1 = Raise e → (c st).2 = st.

(** The category of the magazine of article [r]. *)
Definition topic_of (st : state) (r : addr) : option string :=
  match magazine_of st r with
  | Some m => category_of st m
  | None => None
  end.

(** [v] refers to a registered instance of class [c]. *)
Definition registered (c : class) (st : state) (v : value) : Prop :=
  ∃ a, v = VRef a ∧ a ∈ registry c st.

(** [v] is a string whose length lies between [lo] and [hi]. *)
Definition str_between (lo hi : Z) (v : value) : Prop :=
  ∃ s, v = VStr s ∧ (lo ≤ len s ≤ hi)%Z.

(** [v] is a string of length at least [lo]. *)
Definition str_at_least (lo : Z) (v : value) : Prop :=
  ∃ s, v = VStr s ∧ (lo ≤ len s)%Z.

(** One pass of the counting loops: [d[k] = d.get(k, 0) + 1]. *)
Definition bump `{EqDecision K} (d : dict K) (k : K) : dict K :=
  dict_set d k (dict_get d k 0 + 1)%Z.

(** How many times [k] occurs in [ks]. *)
Definition occurrences `{EqDecision K} (k : K) (ks : list K) : Z :=
  Z.of_nat (length (filter (λ x, x = k) ks)).

(** The writes the program performs, one per public operation at most: a
    new registered instance, the author or the magazine of an article, the
    name or the category of a magazine. *)
Inductive mutation (st : state) : state → Prop :=
| mut_none : mutation st st
| mut_new o :
    obj_ok (heap st) o →
    mutation st (register (class_of o) (length (heap st)) (alloc o st).2)
| mut_author r t a m b :
    heap st !! r = Some (OArticle t a m) → is_a CAuthor (heap st) b →
    mutation st (store r (OArticle t b m) st).2
| mut_magazine r t a m m' :
    heap st !! r = Some (OArticle t a m) → is_a CMagazine (heap st) m' →
    mutation st (store r (OArticle t a m') st).2
| mut_name m n c n' :
    heap st !! m = Some (OMagazine n c) → (2 ≤ len n' ≤ 16)%Z →
    mutation st (store m (OMagazine n' c) st).2
| mut_category m n c c' :
    heap st !! m = Some (OMagazine n c) → (1 ≤ len c')%Z →
    mutation st (store m (OMagazine n c') st).2.

(** The operations that only read. *)
Definition is_query (o : op) : bool :=
  match o with
  | GetArticleTitle _ | GetArticleAuthor _ | GetArticleMagazine _
  | GetAuthorName _ | AuthorArticles _ | AuthorMagazines _ | AuthorTopicAreas _
  | GetMagazineName _ | GetMagazineCategory _ | MagazineArticles _
  | MagazineContributors _ | MagazineArticleTitles _
  | MagazineContributingAuthors _ | MagazineTopPublisher => true
  | _ => false
  end.

(** ** A small process, used to instantiate the theorems *)

(** Author "Ama", magazines "Vogue" and "Wired", and four articles: three by
    Ama in Vogue and one in Wired. *)
Definition sample_ops : list op :=
  [ NewAuthor (VStr "Ama");
    NewMagazine (VStr "Vogue") (VStr "Fashion");
    NewMagazine (VStr "Wired") (VStr "Tech");
    NewArticle (VRef 0) (VRef 1) (VStr "Spring looks");
    NewArticle (VRef 0) (VRef 2) (VStr "Chips");
    NewArticle (VRef 0) (VRef 1) (VStr "Summer looks");
    AuthorAddArticle 0 (VRef 1) (VStr "Autumn looks") ].

Definition sample : state := Eval vm_compute in run sample_ops initial.

(** Two magazines with two articles each; the first article is in Wired. *)
Definition tie_ops : list op :=
  [ NewAuthor (VStr "Ama");
    NewMagazine (VStr "Vogue") (VStr "Fashion");
    NewMagazine (VStr "Wired") (VStr "Tech");
    NewArticle (VRef 0) (VRef 2) (VStr "Chips");
    NewArticle (VRef 0) (VRef 1) (VStr "Spring looks");
    NewArticle (VRef 0) (VRef 1) (VStr "Summer looks");
    NewArticle (VRef 0) (VRef 2) (VStr "Boards") ].

Definition tie_state : state := Eval vm_compute in run tie_ops initial.

(** The sample process after one more article, by Ama in Wired. *)
Definition sample_next : state :=
  Eval vm_compute in (Article.__init__ (VRef 0) (VRef 2) (VStr "Hello") sample).2.

(** The sample process after Vogue is renamed. *)
Definition sample_renamed : state :=
  Eval vm_compute in (Magazine.set_name 1 (VStr "Elle") sample).2.

(** * Proofs *)

(** ** The monad *)

Ltac unfold_m :=
  unfold fmap_m, isinstance, article_at, author_at, magazine_at, py_max,
    Article_all_append, Author_all_append, Magazine_all_append,
    alloc, store, read, bind, ret, raise in *; simpl in *.

Lemma returns_ret {A} st (v : A) : returns st (ret v) v.
Proof. reflexivity. Qed.

Lemma returns_read {A} st (f : state → A) : returns st (read f) (f st).
Proof. reflexivity. Qed.

Lemma returns_bind {A B} st (c : M A) (k : A → M B) v w :
  returns st c v → returns st (k v) w → returns st (bind c k) w.
Proof. unfold returns, bind. by intros -> ->. Qed.

Lemma list_comp_returns {A B} st (l : list A) cond (elt : A → M B)
    (P : A → Prop) `{∀ x, Decision (P x)} fe :
  (∀ x, x ∈ l → returns st (cond x) (bool_decide (P x))) →
  (∀ x, x ∈ l → P x → returns st (elt x) (fe x)) →
  returns st (list_comp l cond elt) (fe <$> filter P l).
Proof.
  induction l as [|x l IH]; intros Hc He; [reflexivity|].
  simpl. eapply returns_bind; [apply Hc; left|].
  rewrite filter_cons. destruct (decide (P x)) as [Hx|Hx].
  - rewrite bool_decide_eq_true_2 by done. rewrite fmap_cons.
    eapply returns_bind; [apply He; [left|done]|].
    eapply returns_bind; [apply IH|apply returns_ret].
    + intros y Hy. apply Hc. by right.
    + intros y Hy. apply He. by right.
  - rewrite bool_decide_eq_false_2 by done.
    apply IH; intros y Hy; [apply Hc|apply He]; by right.
Qed.

Lemma list_comp_all_returns {A B} st (l : list A) (elt : A → M B) fe :
  (∀ x, x ∈ l → returns st (elt x) (fe x)) →
  returns st (list_comp l (λ _, ret true) elt) (fe <$> l).
Proof.
  induction l as [|x l IH]; intros He; [reflexivity|].
  simpl. eapply returns_bind; [apply returns_ret|].
  eapply returns_bind; [apply He; left|].
  eapply returns_bind; [apply IH|apply returns_ret].
  intros y Hy. apply He. by right.
Qed.

Lemma for_each_returns {A B} st (l : list A) (body : B → A → M B) f acc :
  (∀ acc x, x ∈ l → returns st (body acc x) (f acc x)) →
  returns st (for_each l body acc) (fold_left f l acc).
Proof.
  revert acc. induction l as [|x l IH]; intros acc Hb; [reflexivity|].
  simpl. eapply returns_bind; [apply Hb; left|].
  apply IH. intros acc' y Hy. apply Hb. by right.
Qed.

Lemma pure_ret {A} (a : A) : pure_m (ret a).
Proof. by intros st. Qed.

Lemma pure_raise {A} e : pure_m (@raise A e).
Proof. by intros st. Qed.

Lemma pure_read {A} (f : state → A) : pure_m (read f).
Proof. by intros st. Qed.

Lemma pure_bind {A B} (c : M A) (k : A → M B) :
  pure_m c → (∀ a, pure_m (k a)) → pure_m (bind c k).
Proof.
  intros Hc Hk st. unfold bind. specialize (Hc st).
  destruct (c st) as [[a|e] st']; simpl in *; subst; [apply Hk|done].
Qed.

Lemma pure_list_comp {A B} (l : list A) cond (elt : A → M B) :
  (∀ x, pure_m (cond x)) → (∀ x, pure_m (elt x)) → pure_m (list_comp l cond elt).
Proof.
  intros Hc He. induction l as [|x l IH]; [apply pure_ret|].
  simpl. apply pure_bind; [apply Hc|]. intros [|]; [|apply IH].
  apply pure_bind; [apply He|]. intros y.
  apply pure_bind; [apply IH|]. intros ys. apply pure_ret.
Qed.

Lemma pure_for_each {A B} (l : list A) (body : B → A → M B) acc :
  (∀ acc x, pure_m (body acc x)) → pure_m (for_each l body acc).
Proof.
  intros Hb. revert acc. induction l as [|x l IH]; intros acc; [apply pure_ret|].
  simpl. apply pure_bind; [apply Hb|]. intros acc'. apply IH.
Qed.

Lemma pure_py_max {A} key (l : list A) : pure_m (py_max key l).
Proof. destruct l; [apply pure_raise|apply pure_ret]. Qed.

Lemma pure_atomic {A} (c : M A) : pure_m c → atomic c.
Proof. intros Hc st e _. apply Hc. Qed.

Create HintDb pure discriminated.
#[local] Hint Resolve pure_ret pure_raise pure_read pure_py_max : pure.

(** Purity of a method body follows its syntax. *)
Ltac solve_pure :=
  repeat first
    [ solve [auto with pure]
    | apply pure_bind | apply pure_list_comp | apply pure_for_each
    | progress intros
    | match goal with
      | |- pure_m (match ?x with _ => _ end) => destruct x
      end ].

Lemma pure_article_at self : pure_m (article_at self).
Proof. unfold article_at. solve_pure. Qed.

Lemma pure_magazine_at self : pure_m (magazine_at self).
Proof. unfold magazine_at. solve_pure. Qed.

Lemma pure_author_at self : pure_m (author_at self).
Proof. unfold author_at. solve_pure. Qed.

#[local] Hint Resolve pure_article_at pure_magazine_at pure_author_at : pure.

Lemma pure_Article_title self : pure_m (Article.title self).
Proof. unfold Article.title. solve_pure. Qed.

Lemma pure_Article_author self : pure_m (Article.author self).
Proof. unfold Article.author. solve_pure. Qed.

Lemma pure_Article_magazine self : pure_m (Article.magazine self).
Proof. unfold Article.magazine. solve_pure. Qed.

#[local] Hint Resolve pure_Article_title pure_Article_author
  pure_Article_magazine : pure.

Lemma pure_Article_set_title self v : pure_m (Article.set_title self v).
Proof. apply pure_raise. Qed.

Lemma pure_Author_set_name self v : pure_m (Author.set_name self v).
Proof. apply pure_raise. Qed.

Lemma pure_Author_name self : pure_m (Author.name self).
Proof. apply pure_author_at. Qed.

Lemma pure_Magazine_name self : pure_m (Magazine.name self).
Proof. unfold Magazine.name. solve_pure. Qed.

Lemma pure_Magazine_category self : pure_m (Magazine.category self).
Proof. unfold Magazine.category. solve_pure. Qed.

#[local] Hint Resolve pure_Article_set_title pure_Author_set_name pure_Author_name
  pure_Magazine_name pure_Magazine_category : pure.

Lemma pure_Author_articles self : pure_m (Author.articles self).
Proof. unfold Author.articles. solve_pure. Qed.

Lemma pure_Magazine_articles self : pure_m (Magazine.articles self).
Proof. unfold Magazine.articles. solve_pure. Qed.

#[local] Hint Resolve pure_Author_articles pure_Magazine_articles : pure.

Lemma pure_Author_magazines self : pure_m (Author.magazines self).
Proof. unfold Author.magazines. solve_pure. Qed.

Lemma pure_Author_topic_areas self : pure_m (Author.topic_areas self).
Proof. unfold Author.topic_areas. solve_pure. Qed.

Lemma pure_Magazine_contributors self : pure_m (Magazine.contributors self).
Proof. unfold Magazine.contributors. solve_pure. Qed.

Lemma pure_Magazine_article_titles self : pure_m (Magazine.article_titles self).
Proof. unfold Magazine.article_titles. solve_pure. Qed.

Lemma pure_Magazine_contributing_authors self :
  pure_m (Magazine.contributing_authors self).
Proof. unfold Magazine.contributing_authors. solve_pure. Qed.

Lemma pure_Magazine_top_publisher : pure_m Magazine.top_publisher.
Proof. unfold Magazine.top_publisher. solve_pure. Qed.

#[local] Hint Resolve pure_Author_magazines pure_Author_topic_areas
  pure_Magazine_contributors pure_Magazine_article_titles
  pure_Magazine_contributing_authors pure_Magazine_top_publisher : pure.

(** ** [isinstance] and the store *)

Lemma instance_of_Some c v h a :
  instance_of c v h = Some a ↔ v = VRef a ∧ is_a c h a.
Proof.
  unfold instance_of, is_a. split.
  - destruct v as [| | | |b]; try done.
    destruct (h !! b) as [o|] eqn:Hb; [|done].
    case_decide; [|done]. intros [= ->]. eauto.
  - intros [-> (o & -> & Ho)]. by rewrite decide_True.
Qed.

Lemma instance_of_None c v h :
  instance_of c v h = None ↔ ∀ a, v = VRef a → ¬ is_a c h a.
Proof.
  split.
  - intros Hn a -> Ha.
    assert (instance_of c (VRef a) h = Some a) by by apply instance_of_Some.
    congruence.
  - intros Hn. destruct (instance_of c v h) as [a|] eqn:E; [|done].
    apply instance_of_Some in E as [-> Ha]. by destruct (Hn a).
Qed.

Lemma is_a_lt c h a : is_a c h a → a < length h.
Proof. intros (o & Ho & _). by eapply lookup_lt_Some. Qed.

Lemma is_a_app c h o a :
  is_a c (h ++ [o]) a ↔ is_a c h a ∨ (a = length h ∧ class_of o = c).
Proof.
  unfold is_a. split.
  - intros (o' & Ho' & Hc). apply lookup_snoc_Some in Ho' as [[? ?]|[? ?]].
    + left. eauto.
    + right. by subst.
  - intros [(o' & Ho' & Hc)|[-> Hc]].
    + exists o'. split; [by apply lookup_app_l_Some|done].
    + exists o. split; [|done]. rewrite lookup_app_r by lia.
      by rewrite Nat.sub_diag.
Qed.

Lemma is_a_insert c h a o o' b :
  h !! a = Some o → class_of o' = class_of o →
  is_a c (<[a:=o']> h) b ↔ is_a c h b.
Proof.
  intros Ha Hc. unfold is_a. destruct (decide (a = b)) as [->|Hne].
  - rewrite list_lookup_insert_eq by by eapply lookup_lt_Some.
    split.
    + intros (o1 & Ho1 & H1). injection Ho1 as <-.
      exists o. split; [done|]. by rewrite <- Hc.
    + intros (o2 & Ho2 & H2). exists o'. split; [done|].
      rewrite Ha in Ho2. injection Ho2 as <-. by rewrite Hc.
  - by rewrite list_lookup_insert_ne.
Qed.

Lemma obj_ok_app h o o' : obj_ok h o' → obj_ok (h ++ [o]) o'.
Proof.
  destruct o'; simpl; try done.
  intros (? & ? & ?). split; [done|split; apply is_a_app; by left].
Qed.

Lemma obj_ok_insert h a o o' o2 :
  h !! a = Some o → class_of o' = class_of o →
  obj_ok h o2 → obj_ok (<[a:=o']> h) o2.
Proof.
  intros Ha Hc. destruct o2; simpl; try done.
  intros (? & ? & ?). split; [done|split; by eapply is_a_insert].
Qed.

Lemma registry_register c' c a st :
  registry c' (register c a st) =
  if decide (c' = c) then registry c' st ++ [a] else registry c' st.
Proof. by destruct c', c. Qed.

Lemma heap_register c a st : heap (register c a st) = heap st.
Proof. by destruct c. Qed.

(** ** The invariant holds in every reachable state *)

Lemma wf_initial : wf initial.
Proof.
  split.
  - intros []; constructor.
  - intros c a. split.
    + destruct c; simpl; by intros ?%elem_of_nil.
    + intros (o & Ho & _). done.
  - intros a o Ho. done.
Qed.

Lemma effect_wf st st' : wf st → effect st st' → wf st'.
Proof.
  intros [Hnd Hreg Hobj] [|o Ho|a o o' Ha Hc Ho' _]; [done|..].
  - split.
    + intros c. rewrite registry_register.
      change (registry c (alloc o st).2) with (registry c st).
      case_decide as Hc; [|apply Hnd].
      apply NoDup_app. split_and!; [apply Hnd| |apply NoDup_singleton].
      intros x Hx ->%list_elem_of_singleton.
      apply Hreg, is_a_lt in Hx. lia.
    + intros c a. rewrite registry_register, heap_register.
      change (heap (alloc o st).2) with (heap st ++ [o]).
      change (registry c (alloc o st).2) with (registry c st).
      rewrite is_a_app. case_decide as Hc.
      * rewrite elem_of_app, list_elem_of_singleton, Hreg. intuition congruence.
      * rewrite Hreg. intuition congruence.
    + intros a o2. rewrite heap_register.
      change (heap (alloc o st).2) with (heap st ++ [o]).
      intros [[? ?]|[? ?]]%lookup_snoc_Some.
      * apply obj_ok_app. eauto.
      * subst. by apply obj_ok_app.
  - split; simpl.
    + intros c. specialize (Hnd c). by destruct c.
    + intros c b. rewrite (is_a_insert _ _ _ _ _ _ Ha Hc), <- Hreg. by destruct c.
    + intros b o2 Hb. eapply obj_ok_insert; [done..|].
      destruct (decide (a = b)) as [->|Hne].
      * rewrite list_lookup_insert_eq in Hb by by eapply lookup_lt_Some.
        by injection Hb as <-.
      * rewrite list_lookup_insert_ne in Hb by done. eauto.
Qed.

Lemma effect_title st st' r t :
  effect st st' → title_of st r = Some t → title_of st' r = Some t.
Proof.
  intros [|o Ho|a o o' Ha Hc Ho' Ht]; [done|..]; unfold title_of.
  - rewrite heap_register. simpl. intros Hr.
    destruct (heap st !! r) as [o2|] eqn:E; [|done].
    by rewrite (lookup_app_l_Some _ _ _ _ E).
  - simpl. destruct (decide (a = r)) as [->|Hne].
    + rewrite list_lookup_insert_eq by by eapply lookup_lt_Some.
      rewrite Ha. destruct o, o'; simpl in *; congruence.
    + by rewrite list_lookup_insert_ne.
Qed.

(** ** What the constructors and setters do *)

Lemma len_between_true lo hi s :
  negb ((lo <=? len s)%Z && (len s <=? hi)%Z) = false ↔ (lo ≤ len s ≤ hi)%Z.
Proof.
  rewrite negb_false_iff, andb_true_iff, !Z.leb_le. done.
Qed.

Lemma len_positive_true s : (len s <=? 0)%Z = false ↔ (1 ≤ len s)%Z.
Proof. rewrite Z.leb_gt. lia. Qed.

Ltac raise_case := split; [reflexivity|split; [eexists; reflexivity|]].

Lemma Article_init_spec st author magazine title :
  match Article.__init__ author magazine title st with
  | (Ret r, st') =>
      ∃ a m t, author = VRef a ∧ is_a CAuthor (heap st) a ∧
               magazine = VRef m ∧ is_a CMagazine (heap st) m ∧
               title = VStr t ∧ (5 ≤ len t ≤ 50)%Z ∧
               r = length (heap st) ∧
               st' = register CArticle r (alloc (OArticle t a m) st).2
  | (Raise e, st') =>
      st' = st ∧ (∃ msg, e = Exception msg) ∧
      ¬ ((∃ a, author = VRef a ∧ is_a CAuthor (heap st) a) ∧
         (∃ m, magazine = VRef m ∧ is_a CMagazine (heap st) m) ∧
         str_between 5 50 title)
  end.
Proof.
  unfold Article.__init__, str_between. unfold_m.
  destruct (instance_of CAuthor author (heap st)) as [a|] eqn:Ea.
  2:{ raise_case. intros [(a & -> & Ha) _].
      eapply instance_of_None in Ea; eauto. }
  destruct (instance_of CMagazine magazine (heap st)) as [m|] eqn:Em.
  2:{ raise_case. intros (_ & (m & -> & Hm) & _).
      eapply instance_of_None in Em; eauto. }
  apply instance_of_Some in Ea as [-> Ha], Em as [-> Hm].
  destruct title as [| | |t|];
    try (raise_case; by intros (_ & _ & ? & ? & _)).
  destruct (negb _) eqn:Et.
  - raise_case. intros (_ & _ & ? & [= <-] & Hl).
    apply len_between_true in Hl. congruence.
  - apply len_between_true in Et. exists a, m, t. repeat split; first [done | lia].
Qed.

Lemma Author_init_spec st name :
  match Author.__init__ name st with
  | (Ret r, st') =>
      ∃ n, name = VStr n ∧ (1 ≤ len n)%Z ∧ r = length (heap st) ∧
           st' = register CAuthor r (alloc (OAuthor n) st).2
  | (Raise e, st') =>
      st' = st ∧ (∃ msg, e = Exception msg) ∧ ¬ str_at_least 1 name
  end.
Proof.
  unfold Author.__init__, str_at_least. unfold_m.
  destruct name as [| | |n|];
    try (raise_case; by intros (? & ? & _)).
  destruct (len n <=? 0)%Z eqn:En.
  - raise_case. intros (? & [= <-] & Hl).
    apply len_positive_true in Hl. congruence.
  - apply len_positive_true in En. exists n. repeat split; first [done | lia].
Qed.

Lemma Magazine_init_spec st name category :
  match Magazine.__init__ name category st with
  | (Ret r, st') =>
      ∃ n c, name = VStr n ∧ (2 ≤ len n ≤ 16)%Z ∧
             category = VStr c ∧ (1 ≤ len c)%Z ∧ r = length (heap st) ∧
             st' = register CMagazine r (alloc (OMagazine n c) st).2
  | (Raise e, st') =>
      st' = st ∧ (∃ msg, e = Exception msg) ∧
      ¬ (str_between 2 16 name ∧ str_at_least 1 category)
  end.
Proof.
  unfold Magazine.__init__, str_between, str_at_least. unfold_m.
  destruct name as [| | |n|];
    try (raise_case; by intros [(? & ? & _) _]).
  destruct (negb _) eqn:En.
  { raise_case. intros [(? & [= <-] & Hl) _].
    apply len_between_true in Hl. congruence. }
  apply len_between_true in En.
  destruct category as [| | |c|];
    try (raise_case; by intros [_ (? & ? & _)]).
  destruct (len c <=? 0)%Z eqn:Ec.
  - raise_case. intros [_ (? & [= <-] & Hl)].
    apply len_positive_true in Hl. congruence.
  - apply len_positive_true in Ec. exists n, c. repeat split; first [done | lia].
Qed.

Lemma Author_add_article_spec st self magazine title :
  match Author.add_article self magazine title st with
  | (Ret r, st') =>
      ∃ m t, is_a CAuthor (heap st) self ∧
             magazine = VRef m ∧ is_a CMagazine (heap st) m ∧
             title = VStr t ∧ (5 ≤ len t ≤ 50)%Z ∧
             r = length (heap st) ∧
             st' = register CArticle r (alloc (OArticle t self m) st).2
  | (Raise e, st') =>
      st' = st ∧ (∃ msg, e = Exception msg) ∧
      ¬ (is_a CAuthor (heap st) self ∧
         (∃ m, magazine = VRef m ∧ is_a CMagazine (heap st) m) ∧
         str_between 5 50 title)
  end.
Proof.
  unfold Author.add_article.
  unfold bind at 1. unfold isinstance, read.
  destruct (instance_of CMagazine magazine (heap st)) as [m|] eqn:Em.
  2:{ raise_case. intros (_ & (m & -> & Hm) & _).
      eapply instance_of_None in Em; eauto. }
  unfold bind.
  pose proof (Article_init_spec st (VRef self) magazine title) as H.
  destruct (Article.__init__ (VRef self) magazine title st) as [[r|e] st'].
  - destruct H as (a & m' & t & [= <-] & H). exists m', t. unfold ret. tauto.
  - destruct H as (-> & He & Hn). split; [done|split; [done|]].
    intros (? & ? & ?). apply Hn. eauto.
Qed.

Lemma Article_set_author_spec st self v :
  match Article.set_author self v st with
  | (Ret _, st') =>
      ∃ a t a0 m, v = VRef a ∧ is_a CAuthor (heap st) a ∧
                  heap st !! self = Some (OArticle t a0 m) ∧
                  st' = (store self (OArticle t a m) st).2
  | (Raise e, st') =>
      st' = st ∧
      ((∃ msg, e = Exception msg) ∧ ¬ (∃ a, v = VRef a ∧ is_a CAuthor (heap st) a)
       ∨ ¬ is_a CArticle (heap st) self)
  end.
Proof.
  unfold Article.set_author. unfold_m.
  destruct (instance_of CAuthor v (heap st)) as [a|] eqn:Ea.
  2:{ split; [done|left]. split; [eauto|]. intros (a & -> & Ha).
      eapply instance_of_None in Ea; eauto. }
  apply instance_of_Some in Ea as [-> Ha].
  destruct (heap st !! self) as [[| |t a0 m]|] eqn:Es; simpl;
    try (split; [done|right]; intros (o & Ho & Hc); by simplify_eq).
  exists a, t, a0, m. done.
Qed.

Lemma Article_set_magazine_spec st self v :
  match Article.set_magazine self v st with
  | (Ret _, st') =>
      ∃ m t a m0, v = VRef m ∧ is_a CMagazine (heap st) m ∧
                  heap st !! self = Some (OArticle t a m0) ∧
                  st' = (store self (OArticle t a m) st).2
  | (Raise e, st') =>
      st' = st ∧
      ((∃ msg, e = Exception msg) ∧ ¬ (∃ m, v = VRef m ∧ is_a CMagazine (heap st) m)
       ∨ ¬ is_a CArticle (heap st) self)
  end.
Proof.
  unfold Article.set_magazine. unfold_m.
  destruct (instance_of CMagazine v (heap st)) as [m|] eqn:Em.
  2:{ split; [done|left]. split; [eauto|]. intros (m & -> & Hm).
      eapply instance_of_None in Em; eauto. }
  apply instance_of_Some in Em as [-> Hm].
  destruct (heap st !! self) as [[| |t a m0]|] eqn:Es; simpl;
    try (split; [done|right]; intros (o & Ho & Hc); by simplify_eq).
  exists m, t, a, m0. done.
Qed.

Lemma Magazine_set_name_spec st self v :
  match Magazine.set_name self v st with
  | (Ret _, st') =>
      ∃ n n0 c, v = VStr n ∧ (2 ≤ len n ≤ 16)%Z ∧
                heap st !! self = Some (OMagazine n0 c) ∧
                st' = (store self (OMagazine n c) st).2
  | (Raise e, st') =>
      st' = st ∧
      ((∃ msg, e = Exception msg) ∧ ¬ str_between 2 16 v
       ∨ ¬ is_a CMagazine (heap st) self)
  end.
Proof.
  unfold Magazine.set_name, str_between. unfold_m.
  destruct v as [| | |n|];
    try (split; [done|left]; split; [eauto|]; by intros (? & ? & _)).
  destruct (negb _) eqn:En.
  { split; [done|left]. split; [eauto|]. intros (? & [= <-] & Hl).
    apply len_between_true in Hl. congruence. }
  apply len_between_true in En.
  destruct (heap st !! self) as [[|n0 c|]|] eqn:Es; simpl;
    try (split; [done|right]; intros (o & Ho & Hc); by simplify_eq).
  exists n, n0, c. done.
Qed.

Lemma Magazine_set_category_spec st self v :
  match Magazine.set_category self v st with
  | (Ret _, st') =>
      ∃ c n c0, v = VStr c ∧ (1 ≤ len c)%Z ∧
                heap st !! self = Some (OMagazine n c0) ∧
                st' = (store self (OMagazine n c) st).2
  | (Raise e, st') =>
      st' = st ∧
      ((∃ msg, e = Exception msg) ∧ ¬ str_at_least 1 v
       ∨ ¬ is_a CMagazine (heap st) self)
  end.
Proof.
  unfold Magazine.set_category, str_at_least. unfold_m.
  destruct v as [| | |c|];
    try (split; [done|left]; split; [eauto|]; by intros (? & ? & _)).
  destruct (len c <=? 0)%Z eqn:Ec.
  { split; [done|left]. split; [eauto|]. intros (? & [= <-] & Hl).
    apply len_positive_true in Hl. congruence. }
  apply len_positive_true in Ec.
  destruct (heap st !! self) as [[|n c0|]|] eqn:Es; simpl;
    try (split; [done|right]; intros (o & Ho & Hc); by simplify_eq).
  exists c, n, c0. done.
Qed.

(** ** Every operation is atomic and keeps the invariant *)

Lemma fmap_m_snd {A B} (f : A → B) (c : M A) st : (fmap_m f c st).2 = (c st).2.
Proof. unfold fmap_m, bind, ret. by destruct (c st) as [[?|?] ?]. Qed.

Lemma fmap_m_raise {A B} (f : A → B) (c : M A) st e :
  (fmap_m f c st).1 = Raise e → (c st).1 = Raise e.
Proof. unfold fmap_m, bind, ret. destruct (c st) as [[?|?] ?]; simpl; congruence. Qed.

Lemma atomic_fmap_m {A B} (f : A → B) (c : M A) : atomic c → atomic (fmap_m f c).
Proof.
  intros Hc st e He. rewrite fmap_m_snd. eapply Hc, fmap_m_raise, He.
Qed.

Ltac from_spec H :=
  intros st e; pose proof (H st) as Hs; cbv beta in Hs;
  match type of Hs with
  | match ?c with _ => _ end => destruct c as [[?|?] ?]
  end; simpl; [done|intros _; by destruct Hs].

Lemma atomic_Article_init a m t : atomic (Article.__init__ a m t).
Proof. from_spec (λ st, Article_init_spec st a m t). Qed.

Lemma atomic_Author_init n : atomic (Author.__init__ n).
Proof. from_spec (λ st, Author_init_spec st n). Qed.

Lemma atomic_Magazine_init n c : atomic (Magazine.__init__ n c).
Proof. from_spec (λ st, Magazine_init_spec st n c). Qed.

Lemma atomic_Author_add_article self m t : atomic (Author.add_article self m t).
Proof. from_spec (λ st, Author_add_article_spec st self m t). Qed.

Lemma atomic_Article_set_author self v : atomic (Article.set_author self v).
Proof. from_spec (λ st, Article_set_author_spec st self v). Qed.

Lemma atomic_Article_set_magazine self v : atomic (Article.set_magazine self v).
Proof. from_spec (λ st, Article_set_magazine_spec st self v). Qed.

Lemma atomic_Magazine_set_name self v : atomic (Magazine.set_name self v).
Proof. from_spec (λ st, Magazine_set_name_spec st self v). Qed.

Lemma atomic_Magazine_set_category self v : atomic (Magazine.set_category self v).
Proof. from_spec (λ st, Magazine_set_category_spec st self v). Qed.

Lemma step_atomic o : atomic (step o).
Proof.
  destruct o; unfold step; apply atomic_fmap_m;
    first [ apply pure_atomic; solve [auto with pure]
          | apply atomic_Article_init | apply atomic_Author_init
          | apply atomic_Magazine_init | apply atomic_Author_add_article
          | apply atomic_Article_set_author | apply atomic_Article_set_magazine
          | apply atomic_Magazine_set_name | apply atomic_Magazine_set_category ].
Qed.

Lemma effect_of_pure {A} (c : M A) st : pure_m c → effect st (c st).2.
Proof. intros ->. constructor. Qed.

Lemma effect_Article_init st a m t :
  effect st (Article.__init__ a m t st).2.
Proof.
  pose proof (Article_init_spec st a m t) as Hs.
  destruct (Article.__init__ a m t st) as [[r|e] st']; simpl.
  - destruct Hs as (a' & m' & t' & _ & Ha & _ & Hm & _ & Ht & -> & ->).
    by apply (eff_new st (OArticle t' a' m')).
  - destruct Hs as [-> _]. constructor.
Qed.

Lemma effect_Author_add_article st self m t :
  effect st (Author.add_article self m t st).2.
Proof.
  pose proof (Author_add_article_spec st self m t) as Hs.
  destruct (Author.add_article self m t st) as [[r|e] st']; simpl.
  - destruct Hs as (m' & t' & Ha & _ & Hm & _ & Ht & -> & ->).
    by apply (eff_new st (OArticle t' self m')).
  - destruct Hs as [-> _]. constructor.
Qed.

Lemma effect_Author_init st n : effect st (Author.__init__ n st).2.
Proof.
  pose proof (Author_init_spec st n) as Hs.
  destruct (Author.__init__ n st) as [[r|e] st']; simpl.
  - destruct Hs as (n' & _ & Hn & -> & ->).
    apply (eff_new st (OAuthor n')). simpl. lia.
  - destruct Hs as [-> _]. constructor.
Qed.

Lemma effect_Magazine_init st n c : effect st (Magazine.__init__ n c st).2.
Proof.
  pose proof (Magazine_init_spec st n c) as Hs.
  destruct (Magazine.__init__ n c st) as [[r|e] st']; simpl.
  - destruct Hs as (n' & c' & _ & Hn & _ & Hc & -> & ->).
    apply (eff_new st (OMagazine n' c')). simpl. lia.
  - destruct Hs as [-> _]. constructor.
Qed.

Lemma effect_Article_set_author st self v :
  wf st → effect st (Article.set_author self v st).2.
Proof.
  intros Hwf. pose proof (Article_set_author_spec st self v) as Hs.
  destruct (Article.set_author self v st) as [[r|e] st']; simpl.
  - destruct Hs as (a & t & a0 & m & _ & Ha & Hself & ->).
    apply (eff_set st self _ _ Hself); [done| |done].
    apply (wf_obj _ Hwf) in Hself. simpl in *. tauto.
  - destruct Hs as [-> _]. constructor.
Qed.

Lemma effect_Article_set_magazine st self v :
  wf st → effect st (Article.set_magazine self v st).2.
Proof.
  intros Hwf. pose proof (Article_set_magazine_spec st self v) as Hs.
  destruct (Article.set_magazine self v st) as [[r|e] st']; simpl.
  - destruct Hs as (m & t & a & m0 & _ & Hm & Hself & ->).
    apply (eff_set st self _ _ Hself); [done| |done].
    apply (wf_obj _ Hwf) in Hself. simpl in *. tauto.
  - destruct Hs as [-> _]. constructor.
Qed.

Lemma effect_Magazine_set_name st self v :
  wf st → effect st (Magazine.set_name self v st).2.
Proof.
  intros Hwf. pose proof (Magazine_set_name_spec st self v) as Hs.
  destruct (Magazine.set_name self v st) as [[r|e] st']; simpl.
  - destruct Hs as (n & n0 & c & _ & Hn & Hself & ->).
    apply (eff_set st self _ _ Hself); [done| |done].
    apply (wf_obj _ Hwf) in Hself. simpl in *. tauto.
  - destruct Hs as [-> _]. constructor.
Qed.

Lemma effect_Magazine_set_category st self v :
  wf st → effect st (Magazine.set_category self v st).2.
Proof.
  intros Hwf. pose proof (Magazine_set_category_spec st self v) as Hs.
  destruct (Magazine.set_category self v st) as [[r|e] st']; simpl.
  - destruct Hs as (c & n & c0 & _ & Hc & Hself & ->).
    apply (eff_set st self _ _ Hself); [done| |done].
    apply (wf_obj _ Hwf) in Hself. simpl in *. split; [tauto|lia].
  - destruct Hs as [-> _]. constructor.
Qed.

Lemma step_effect st o : wf st → effect st (step o st).2.
Proof.
  intros Hwf. destruct o; unfold step; rewrite fmap_m_snd;
    first [ apply effect_of_pure; solve [auto with pure]
          | apply effect_Article_init | apply effect_Author_init
          | apply effect_Magazine_init | apply effect_Author_add_article
          | by apply effect_Article_set_author
          | by apply effect_Article_set_magazine
          | by apply effect_Magazine_set_name
          | by apply effect_Magazine_set_category ].
Qed.

Lemma run_app ops1 ops2 st : run (ops1 ++ ops2) st = run ops2 (run ops1 st).
Proof. apply fold_left_app. Qed.

Lemma run_wf ops st : wf st → wf (run ops st).
Proof.
  revert st. induction ops as [|o ops IH]; intros st Hwf; [done|].
  simpl. apply IH. eapply effect_wf; [done|]. by apply step_effect.
Qed.

Lemma reachable_wf st : reachable st → wf st.
Proof. intros [ops <-]. apply run_wf, wf_initial. Qed.

Lemma reachable_run ops st : reachable st → reachable (run ops st).
Proof. intros [ops0 <-]. exists (ops0 ++ ops). apply run_app. Qed.

Lemma run_title ops st r t :
  wf st → title_of st r = Some t → title_of (run ops st) r = Some t.
Proof.
  revert st. induction ops as [|o ops IH]; intros st Hwf Ht; [done|].
  simpl. pose proof (step_effect st o Hwf) as He.
  apply IH; [by eapply effect_wf|by eapply effect_title].
Qed.

(** ** Dictionaries and the counting loop *)

Section dict.
Context `{EqDecision K}.
Implicit Types (d : dict K) (k : K) (ks : list K).

Lemma dict_get_set d k v k' def :
  dict_get (dict_set d k v) k' def = if decide (k = k') then v else dict_get d k' def.
Proof.
  induction d as [|[k0 v0] d IH]; simpl.
  - by repeat case_decide.
  - repeat (case_decide; simpl; simplify_eq); done.
Qed.

Lemma dict_set_keys d k v :
  (dict_set d k v).*1 = if decide (k ∈ d.*1) then d.*1 else d.*1 ++ [k].
Proof.
  induction d as [|[k0 v0] d IH].
  - case_decide as H; [by apply elem_of_nil in H|done].
  - cbn [dict_set]. destruct (decide (k0 = k)) as [->|Hne].
    + clear IH. case_decide as H; [reflexivity|]. destruct H. left.
    + rewrite !fmap_cons, IH. cbn [fst].
      destruct (decide (k ∈ d.*1)) as [Hin|Hnin].
      * case_decide as H; [reflexivity|]. destruct H. by right.
      * case_decide as H; [|reflexivity].
        apply elem_of_cons in H as [?|?]; [congruence|done].
Qed.

Lemma dict_get_elem d k v def : NoDup d.*1 → (k, v) ∈ d → dict_get d k def = v.
Proof.
  induction d as [|[k0 v0] d IH]; simpl; [by intros _ ?%elem_of_nil|].
  intros [Hk0 Hnd]%NoDup_cons [Heq|Hin]%elem_of_cons.
  - injection Heq as -> ->. by rewrite decide_True.
  - rewrite decide_False; [by apply IH|].
    intros ->. apply Hk0. apply list_elem_of_fmap. by exists (k, v).
Qed.

Lemma occurrences_nil k : occurrences k [] = 0%Z.
Proof. done. Qed.

Lemma occurrences_cons k x ks :
  occurrences k (x :: ks) =
  ((if decide (x = k) then 1 else 0) + occurrences k ks)%Z.
Proof.
  unfold occurrences. rewrite filter_cons. case_decide; simpl; lia.
Qed.

Lemma occurrences_nonneg k ks : (0 ≤ occurrences k ks)%Z.
Proof. unfold occurrences. lia. Qed.

Lemma occurrences_pos k ks : k ∈ ks ↔ (0 < occurrences k ks)%Z.
Proof.
  induction ks as [|x ks IH].
  - rewrite occurrences_nil. split; [by intros ?%elem_of_nil|lia].
  - rewrite occurrences_cons, elem_of_cons, IH.
    pose proof (occurrences_nonneg k ks). case_decide; split; try lia.
    + intros _. by left.
    + intros [?|?]; [congruence|lia].
Qed.

Lemma bump_all_get ks d k :
  dict_get (fold_left bump ks d) k 0 = (dict_get d k 0 + occurrences k ks)%Z.
Proof.
  revert d. induction ks as [|x ks IH]; intros d; simpl.
  - rewrite occurrences_nil. lia.
  - rewrite IH, occurrences_cons. unfold bump at 1. rewrite dict_get_set.
    case_decide; [subst|]; lia.
Qed.

Lemma bump_all_keys_nodup ks d : NoDup d.*1 → NoDup (fold_left bump ks d).*1.
Proof.
  revert d. induction ks as [|x ks IH]; intros d Hd; simpl; [done|].
  apply IH. unfold bump. rewrite dict_set_keys. case_decide; [done|].
  apply NoDup_app. split_and!; [done| |apply NoDup_singleton].
  by intros y Hy ->%list_elem_of_singleton.
Qed.

Lemma bump_all_keys_elem ks d k :
  k ∈ (fold_left bump ks d).*1 ↔ k ∈ d.*1 ∨ k ∈ ks.
Proof.
  revert d. induction ks as [|x ks IH]; intros d; simpl.
  - split; [by left|]. intros [?|Hk]; [done|by apply elem_of_nil in Hk].
  - rewrite IH. unfold bump. rewrite dict_set_keys, elem_of_cons.
    case_decide as Hx.
    + split; [tauto|]. intros [?|[->|?]]; tauto.
    + rewrite elem_of_app, list_elem_of_singleton. tauto.
Qed.

(** The keys are kept in the order of their first occurrence. *)
Lemma bump_all_order ks ks1 k ks2 :
  (fold_left bump ks []).*1 = ks1 ++ k :: ks2 →
  ∃ pre post, ks = pre ++ k :: post ∧ (k ∉ pre) ∧ (∀ x, x ∈ pre → x ∈ ks1).
Proof.
  revert ks1 k ks2. induction ks as [|x ks IH] using rev_ind; intros ks1 k ks2.
  - simpl. intros Heq. by apply app_cons_not_nil in Heq.
  - rewrite fold_left_app. simpl. unfold bump at 1. rewrite dict_set_keys.
    case_decide as Hx.
    + intros (pre & post & -> & Hk & Hpre)%IH.
      exists pre, (post ++ [x]). by rewrite <- app_assoc.
    + intros Heq. destruct ks2 as [|y ks2 _] using rev_ind.
      * apply app_inj_tail in Heq as [Heq <-].
        exists ks, []. split_and!; [done| |].
        -- intros Hin. apply Hx, bump_all_keys_elem. by right.
        -- intros y Hy. rewrite <- Heq. apply bump_all_keys_elem. by right.
      * rewrite app_comm_cons, app_assoc in Heq.
        apply app_inj_tail in Heq as [Heq <-].
        apply IH in Heq as (pre & post & -> & Hk & Hpre).
        exists pre, (post ++ [x]). by rewrite <- app_assoc.
Qed.

End dict.

Lemma max_from_spec {A} (key : A → Z) best l :
  ∃ l1 l2, best :: l = l1 ++ max_from key best l :: l2 ∧
           (∀ y, y ∈ l1 → (key y < key (max_from key best l))%Z) ∧
           (∀ y, y ∈ l2 → (key y ≤ key (max_from key best l))%Z).
Proof.
  revert best. induction l as [|x l IH]; intros best; simpl.
  - exists [], []. split_and!; [reflexivity|by intros y ?%elem_of_nil..].
  - destruct (key best <? key x)%Z eqn:E.
    + apply Z.ltb_lt in E. destruct (IH x) as (l1 & l2 & Heq & H1 & H2).
      set (M := max_from key x l) in *. clearbody M.
      exists (best :: l1), l2. split_and!; [by rewrite Heq| |done].
      intros y [->|Hy]%elem_of_cons; [|by apply H1].
      assert (x ∈ l1 ++ M :: l2) as Hx by (rewrite <- Heq; left).
      apply elem_of_app in Hx as [Hx|Hx]; [apply H1 in Hx; lia|].
      apply elem_of_cons in Hx as [<-|Hx]; [lia|apply H2 in Hx; lia].
    + apply Z.ltb_ge in E. destruct (IH best) as (l1 & l2 & Heq & H1 & H2).
      set (M := max_from key best l) in *. clearbody M.
      destruct l1 as [|b l1]; simpl in Heq.
      * injection Heq as <- <-. exists [], (x :: l).
        split_and!; [reflexivity|by intros y ?%elem_of_nil|].
        intros y [->|Hy]%elem_of_cons; [done|by apply H2].
      * injection Heq as <- Hl. exists (best :: x :: l1), l2.
        split_and!; [by rewrite Hl| |done].
        assert (key best < key M)%Z by (apply H1; left).
        intros y [->|[->|Hy]%elem_of_cons]%elem_of_cons; [done|lia|].
        apply H1. by right.
Qed.

(** ** The queries in a well-formed store *)

Lemma Article_author_returns st r a :
  author_of st r = Some a → returns st (Article.author r) a.
Proof.
  unfold author_of, Article.author, returns. unfold_m.
  destruct (heap st !! r) as [[| |]|]; try done. by intros [= ->].
Qed.

Lemma Article_magazine_returns st r m :
  magazine_of st r = Some m → returns st (Article.magazine r) m.
Proof.
  unfold magazine_of, Article.magazine, returns. unfold_m.
  destruct (heap st !! r) as [[| |]|]; try done. by intros [= ->].
Qed.

Lemma Article_title_returns st r t :
  title_of st r = Some t → returns st (Article.title r) t.
Proof.
  unfold title_of, Article.title, returns. unfold_m.
  destruct (heap st !! r) as [[| |]|]; try done. by intros [= ->].
Qed.

Lemma wf_article st r :
  wf st → r ∈ Article_all st →
  ∃ t a m, heap st !! r = Some (OArticle t a m) ∧
           (5 ≤ len t ≤ 50)%Z ∧ a ∈ Author_all st ∧ m ∈ Magazine_all st.
Proof.
  intros Hwf Hr. apply (wf_reg _ Hwf CArticle) in Hr as (o & Ho & Hc).
  destruct o as [| |t a m]; try done.
  pose proof (wf_obj _ Hwf _ _ Ho) as (Ht & Ha & Hm).
  exists t, a, m. split_and!; [done|lia|lia|..].
  - by apply (wf_reg _ Hwf CAuthor).
  - by apply (wf_reg _ Hwf CMagazine).
Qed.

Lemma wf_author_of st r :
  wf st → r ∈ Article_all st → ∃ a, author_of st r = Some a ∧ a ∈ Author_all st.
Proof.
  intros Hwf Hr. destruct (wf_article st r Hwf Hr) as (t & a & m & Ho & _ & Ha & _).
  exists a. unfold author_of. by rewrite Ho.
Qed.

Lemma wf_magazine_of st r :
  wf st → r ∈ Article_all st → ∃ m, magazine_of st r = Some m ∧ m ∈ Magazine_all st.
Proof.
  intros Hwf Hr. destruct (wf_article st r Hwf Hr) as (t & a & m & Ho & _ & _ & Hm).
  exists m. unfold magazine_of. by rewrite Ho.
Qed.

Lemma wf_title_of st r :
  wf st → r ∈ Article_all st → ∃ t, title_of st r = Some t ∧ (5 ≤ len t ≤ 50)%Z.
Proof.
  intros Hwf Hr. destruct (wf_article st r Hwf Hr) as (t & a & m & Ho & Ht & _).
  exists t. unfold title_of. by rewrite Ho.
Qed.

Lemma wf_magazine st m :
  wf st → m ∈ Magazine_all st →
  ∃ n c, heap st !! m = Some (OMagazine n c) ∧ (2 ≤ len n ≤ 16)%Z ∧ (1 ≤ len c)%Z.
Proof.
  intros Hwf Hm. apply (wf_reg _ Hwf CMagazine) in Hm as (o & Ho & Hc).
  destruct o as [|n c|]; try done.
  pose proof (wf_obj _ Hwf _ _ Ho) as (Hn & Hcat).
  exists n, c. split_and!; [done|lia..].
Qed.

Lemma Author_articles_returns st self :
  wf st →
  returns st (Author.articles self)
    (filter (λ r, author_of st r = Some self) (Article_all st)).
Proof.
  intros Hwf. unfold Author.articles.
  eapply returns_bind; [apply returns_read|].
  rewrite <- (list_fmap_id (filter _ _)).
  apply list_comp_returns.
  - intros r Hr. destruct (wf_author_of st r Hwf Hr) as (a & Ha & _).
    eapply returns_bind; [by apply Article_author_returns|].
    rewrite Ha. rewrite (bool_decide_ext (Some a = Some self) (a = self)).
    + apply returns_ret.
    + split; congruence.
  - intros r _ _. apply returns_ret.
Qed.

Lemma Magazine_articles_returns st self :
  wf st →
  returns st (Magazine.articles self)
    (filter (λ r, magazine_of st r = Some self) (Article_all st)).
Proof.
  intros Hwf. unfold Magazine.articles.
  eapply returns_bind; [apply returns_read|].
  rewrite <- (list_fmap_id (filter _ _)).
  apply list_comp_returns.
  - intros r Hr. destruct (wf_magazine_of st r Hwf Hr) as (m & Hm & _).
    eapply returns_bind; [by apply Article_magazine_returns|].
    rewrite Hm. rewrite (bool_decide_ext (Some m = Some self) (m = self)).
    + apply returns_ret.
    + split; congruence.
  - intros r _ _. apply returns_ret.
Qed.

Lemma sample_reachable : reachable sample.
Proof. exists sample_ops. reflexivity. Defined.

Lemma effect_registry st st' c a :
  effect st st' → a ∈ registry c st → a ∈ registry c st'.
Proof.
  intros [|o Ho|b o o' Hb Hc Ho' _]; [done|..].
  - rewrite registry_register. intros Ha. case_decide; [|done].
    apply elem_of_app. by left.
  - by destruct c.
Qed.

Lemma run_registry ops st c a :
  wf st → a ∈ registry c st → a ∈ registry c (run ops st).
Proof.
  revert st. induction ops as [|o ops IH]; intros st Hwf Ha; [done|].
  simpl. pose proof (step_effect st o Hwf) as He.
  apply IH; [by eapply effect_wf|by eapply effect_registry].
Qed.

Lemma name_of_store st m n c :
  m < length (heap st) → name_of (store m (OMagazine n c) st).2 m = Some n.
Proof.
  intros Hm. unfold name_of. simpl. by rewrite list_lookup_insert_eq.
Qed.

Lemma category_of_store st m n c :
  m < length (heap st) → category_of (store m (OMagazine n c) st).2 m = Some c.
Proof.
  intros Hm. unfold category_of. simpl. by rewrite list_lookup_insert_eq.
Qed.

Lemma reachable_name st m :
  reachable st → m ∈ Magazine_all st →
  ∃ n, name_of st m = Some n ∧ (2 ≤ len n ≤ 16)%Z.
Proof.
  intros Hwf%reachable_wf Hm.
  destruct (wf_magazine st m Hwf Hm) as (n & c & Ho & Hn & _).
  exists n. unfold name_of. by rewrite Ho.
Qed.

Lemma Magazine_name_returns st m n :
  name_of st m = Some n → Magazine.name m st = (Ret n, st).
Proof.
  unfold name_of, Magazine.name. unfold_m.
  destruct (heap st !! m) as [[| |]|]; try done. by intros [= ->].
Qed.

Lemma Magazine_category_returns st m c :
  category_of st m = Some c → Magazine.category m st = (Ret c, st).
Proof.
  unfold category_of, Magazine.category. unfold_m.
  destruct (heap st !! m) as [[| |]|]; try done. by intros [= ->].
Qed.

Lemma Author_name_returns st a n :
  heap st !! a = Some (OAuthor n) → Author.name a st = (Ret n, st).
Proof. intros Ha. unfold Author.name. unfold_m. by rewrite Ha. Qed.

Lemma author_of_store st r t a m r' :
  r < length (heap st) →
  author_of (store r (OArticle t a m) st).2 r' =
  if decide (r' = r) then Some a else author_of st r'.
Proof.
  intros Hr. unfold author_of. simpl. case_decide as Hd.
  - subst. by rewrite list_lookup_insert_eq.
  - by rewrite list_lookup_insert_ne.
Qed.

Lemma magazine_at_returns st m n c :
  heap st !! m = Some (OMagazine n c) → returns st (magazine_at m) (n, c).
Proof. intros Hm. unfold magazine_at, returns. unfold_m. by rewrite Hm. Qed.

Lemma wf_topic_of st r :
  wf st → r ∈ Article_all st →
  ∃ m n c, magazine_of st r = Some m ∧ heap st !! m = Some (OMagazine n c) ∧
           topic_of st r = Some c.
Proof.
  intros Hwf Hr. destruct (wf_magazine_of st r Hwf Hr) as (m & Hm & Hreg).
  destruct (wf_magazine st m Hwf Hreg) as (n & c & Ho & _).
  exists m, n, c. split_and!; [done..|].
  unfold topic_of, category_of. by rewrite Hm, Ho.
Qed.

Lemma Author_topic_areas_returns st self :
  wf st →
  returns st (Author.topic_areas self)
    (match filter (λ r, author_of st r = Some self) (Article_all st) with
     | [] => None
     | arts =>
         Some (elements (list_to_set ((λ r, default "" (topic_of st r)) <$> arts)
                           : gset string))
     end).
Proof.
  intros Hwf. unfold Author.topic_areas.
  eapply returns_bind; [by apply Author_articles_returns|].
  destruct (filter _ _) as [|r0 arts] eqn:E; [apply returns_ret|].
  eapply returns_bind; [by apply Author_articles_returns|].
  rewrite E.
  eapply returns_bind; [|apply returns_ret].
  apply list_comp_all_returns. intros r Hr.
  assert (r ∈ Article_all st) as Hall.
  { rewrite <- E in Hr. by apply list_elem_of_filter in Hr as [_ ?]. }
  destruct (wf_topic_of st r Hwf Hall) as (m & n & c & Hm & Ho & Ht).
  eapply returns_bind; [by apply Article_magazine_returns|].
  eapply returns_bind; [by apply magazine_at_returns|].
  rewrite Ht. apply returns_ret.
Qed.

Lemma fold_left_bump_fmap {A} `{EqDecision K} (g : A → K) (l : list A) (d : dict K) :
  fold_left (λ d x, bump d (g x)) l d = fold_left bump (g <$> l) d.
Proof. revert d. induction l as [|x l IH]; intros d; simpl; [done|apply IH]. Qed.

Lemma ltb_bool_decide a b : (a <? b)%Z = bool_decide (a < b)%Z.
Proof.
  destruct (Z.ltb_spec a b).
  - by rewrite bool_decide_eq_true_2.
  - rewrite bool_decide_eq_false_2; [done|lia].
Qed.

Lemma occurrences_fmap_filter {A} `{EqDecision K} (g : A → K) k (l : list A)
    (P Q : A → Prop) `{∀ x, Decision (P x)} `{∀ x, Decision (Q x)} :
  (∀ x, x ∈ l → P x → (g x = k ↔ Q x)) →
  occurrences k (g <$> filter P l) =
  Z.of_nat (length (filter (λ x, P x ∧ Q x) l)).
Proof.
  induction l as [|x l IH]; intros Hg; [done|].
  assert (occurrences k (g <$> filter P l) =
          Z.of_nat (length (filter (λ x, P x ∧ Q x) l))) as IH'.
  { apply IH. intros y Hy. apply Hg. by right. }
  rewrite !filter_cons. destruct (decide (P x)) as [HP|HP].
  - rewrite fmap_cons, occurrences_cons, IH'.
    specialize (Hg x (list_elem_of_here _ _) HP).
    destruct (decide (g x = k)) as [Hk|Hk].
    + rewrite decide_True by tauto. simpl. lia.
    + rewrite decide_False by tauto. lia.
  - rewrite decide_False by tauto. done.
Qed.

(** The dictionary a counting loop over [ks] builds from the empty one. *)
Lemma counts_get `{EqDecision K} (ks : list K) (k : K) :
  dict_get (fold_left bump ks []) k 0 = occurrences k ks.
Proof. rewrite bump_all_get. simpl. lia. Qed.

Lemma counts_elem `{EqDecision K} (ks : list K) (k : K) (v : Z) :
  (k, v) ∈ fold_left bump ks [] → v = occurrences k ks ∧ k ∈ ks.
Proof.
  intros Hin. split.
  - rewrite <- counts_get. symmetry. apply dict_get_elem; [|done].
    apply bump_all_keys_nodup. constructor.
  - assert (k ∈ (fold_left bump ks []).*1) as Hk.
    { apply list_elem_of_fmap. by exists (k, v). }
    apply bump_all_keys_elem in Hk as [Hk|Hk]; [by apply elem_of_nil in Hk|done].
Qed.

Lemma counts_elem_of `{EqDecision K} (ks : list K) (k : K) :
  k ∈ ks → (k, occurrences k ks) ∈ fold_left bump ks [].
Proof.
  intros Hk.
  assert (k ∈ (fold_left bump ks []).*1) as Hin.
  { apply bump_all_keys_elem. by right. }
  apply list_elem_of_fmap in Hin as ([k' v] & -> & Hin).
  by destruct (counts_elem ks k' v Hin) as [-> _].
Qed.

Lemma Magazine_contributing_authors_returns st self :
  wf st →
  returns st (Magazine.contributing_authors self)
    (match
       (filter (λ item, (2 < item.2)%Z)
          (fold_left bump
             ((λ r, default 0 (author_of st r)) <$>
                filter (λ r, magazine_of st r = Some self) (Article_all st)) [])).*1
     with
     | [] => None
     | prolific => Some prolific
     end).
Proof.
  intros Hwf. unfold Magazine.contributing_authors.
  eapply returns_bind; [by apply Magazine_articles_returns|].
  eapply returns_bind.
  { apply (for_each_returns _ _ _ (λ d r, bump d (default 0 (author_of st r)))).
    intros d r [_ Hr]%list_elem_of_filter.
    destruct (wf_author_of st r Hwf Hr) as (a & Ha & _).
    eapply returns_bind; [by apply Article_author_returns|].
    rewrite Ha. apply returns_ret. }
  rewrite fold_left_bump_fmap.
  eapply returns_bind.
  { apply (list_comp_returns _ _ _ _ (λ item, (2 < item.2)%Z) fst).
    - intros item _. rewrite <- ltb_bool_decide. apply returns_ret.
    - intros item _ _. apply returns_ret. }
  destruct (_.*1); apply returns_ret.
Qed.

Lemma author_count_occurrences st m a :
  wf st →
  occurrences a ((λ r, default 0 (author_of st r)) <$>
                   filter (λ r, magazine_of st r = Some m) (Article_all st))
  = author_count st m a.
Proof.
  intros Hwf. unfold author_count.
  apply (occurrences_fmap_filter _ _ _ _ (λ r, author_of st r = Some a)).
  intros r Hr _. destruct (wf_author_of st r Hwf Hr) as (a' & -> & _).
  simpl. split; congruence.
Qed.

Lemma occurrences_fmap {A} `{EqDecision K} (g : A → K) k (l : list A)
    (Q : A → Prop) `{∀ x, Decision (Q x)} :
  (∀ x, x ∈ l → (g x = k ↔ Q x)) →
  occurrences k (g <$> l) = Z.of_nat (length (filter Q l)).
Proof.
  induction l as [|x l IH]; intros Hg; [done|].
  rewrite fmap_cons, occurrences_cons, filter_cons, IH.
  - specialize (Hg x (list_elem_of_here _ _)).
    destruct (decide (g x = k)) as [Hk|Hk].
    + rewrite decide_True by tauto. simpl. lia.
    + rewrite decide_False by tauto. lia.
  - intros y Hy. apply Hg. by right.
Qed.

Lemma article_count_occurrences st m :
  wf st →
  occurrences m ((λ r, default 0 (magazine_of st r)) <$> Article_all st)
  = article_count st m.
Proof.
  intros Hwf. unfold article_count. apply occurrences_fmap.
  intros r Hr. destruct (wf_magazine_of st r Hwf Hr) as (m' & -> & _).
  simpl. split; congruence.
Qed.

Lemma Magazine_top_publisher_returns st :
  wf st →
  returns st Magazine.top_publisher
    (match Article_all st with
     | [] => None
     | _ =>
         match fold_left bump
                 ((λ r, default 0 (magazine_of st r)) <$> Article_all st) [] with
         | [] => None
         | x :: l => Some (max_from (λ x : addr * Z, x.2) x l).1
         end
     end).
Proof.
  intros Hwf. unfold Magazine.top_publisher.
  eapply returns_bind; [apply returns_read|].
  destruct (Article_all st) as [|r0 all] eqn:E; [apply returns_ret|].
  eapply returns_bind.
  { apply (for_each_returns _ _ _ (λ d r, bump d (default 0 (magazine_of st r)))).
    intros d r Hr. rewrite <- E in Hr.
    destruct (wf_magazine_of st r Hwf Hr) as (m & Hm & _).
    eapply returns_bind; [by apply Article_magazine_returns|].
    rewrite Hm. apply returns_ret. }
  rewrite fold_left_bump_fmap.
  destruct (fold_left bump _ []) as [|x l]; [apply returns_ret|].
  eapply returns_bind; apply returns_ret.
Qed.

(** What [top_publisher] returns when there are articles: a registered
    magazine [m] with the greatest count, whose first article [r] comes
    after articles of magazines with strictly smaller counts only. *)
Lemma top_publisher_analysis st :
  wf st → Article_all st ≠ [] →
  ∃ m pre r post,
    returns st Magazine.top_publisher (Some m) ∧
    Article_all st = pre ++ r :: post ∧
    magazine_of st r = Some m ∧ m ∈ Magazine_all st ∧
    (∀ m', (article_count st m' ≤ article_count st m)%Z) ∧
    (∀ r' m', r' ∈ pre → magazine_of st r' = Some m' →
       (article_count st m' < article_count st m)%Z).
Proof.
  intros Hwf Hne. pose proof (Magazine_top_publisher_returns st Hwf) as Hret.
  assert (∃ r0, r0 ∈ Article_all st) as [r0 Hr0].
  { destruct (Article_all st); [done|]. eexists. left. }
  destruct (Article_all st) as [|r1 all] eqn:E; [done|].
  cbv beta iota in Hret. rewrite <- E in *. clear E r1 all.
  set (g := λ r, default 0 (magazine_of st r)) in *.
  set (mags := g <$> Article_all st) in *.
  assert (∀ m, occurrences m mags = article_count st m) as Hocc
    by (intros m; by apply article_count_occurrences).
  destruct (fold_left bump mags []) as [|x l] eqn:Ec.
  { assert (g r0 ∈ (fold_left bump mags []).*1) as Hin.
    { apply bump_all_keys_elem. right. by apply list_elem_of_fmap_2. }
    rewrite Ec in Hin. by apply elem_of_nil in Hin. }
  destruct (max_from_spec (λ x : addr * Z, x.2) x l) as (l1 & l2 & Heq & H1 & H2).
  destruct (max_from _ x l) as [m v]. simpl in *.
  assert (∀ k w, (k, w) ∈ l1 ++ (m, v) :: l2 → w = article_count st k ∧ k ∈ mags)
    as Hitem.
  { intros k w Hin. rewrite <- Heq, <- Ec in Hin.
    destruct (counts_elem mags k w Hin) as [-> ?]. by rewrite Hocc. }
  destruct (Hitem m v) as [-> Hm]; [apply elem_of_app; right; left|].
  assert ((fold_left bump mags []).*1 = l1.*1 ++ m :: l2.*1) as Hkeys
    by (by rewrite Ec, Heq, fmap_app).
  apply bump_all_order in Hkeys as (pre & post & Hmags & Hm_pre & Hpre).
  apply fmap_app_inv in Hmags as (pre' & rest & -> & Hrest & Hall).
  symmetry in Hrest. apply fmap_cons_inv in Hrest as (r & post' & -> & -> & ->).
  assert (r ∈ Article_all st) as Hr.
  { rewrite Hall. apply elem_of_app. right. left. }
  destruct (wf_magazine_of st r Hwf Hr) as (m & Hmr & Hreg).
  assert (g r = m) as Hgr by (unfold g; by rewrite Hmr). rewrite Hgr in *.
  exists m, pre', r, post'. split_and!; [done..| |].
  - intros m'. destruct (decide (m' ∈ mags)) as [Hin|Hnin].
    + apply counts_elem_of in Hin. rewrite Ec, Heq, Hocc in Hin.
      apply elem_of_app in Hin as [Hin|Hin]; [apply H1 in Hin; simpl in Hin; lia|].
      apply elem_of_cons in Hin as [Hin|Hin];
        [assert (m' = m) as -> by congruence; lia|].
      apply H2 in Hin. simpl in Hin. lia.
    + rewrite <- !Hocc. apply occurrences_pos in Hm.
      pose proof (occurrences_nonneg m' mags).
      assert (¬ (0 < occurrences m' mags)%Z) by (by rewrite <- occurrences_pos).
      lia.
  - intros r' m' Hr' Hm'.
    assert (m' ∈ l1.*1) as Hin.
    { apply Hpre. apply list_elem_of_fmap. exists r'. split; [|done].
      unfold g. by rewrite Hm'. }
    apply list_elem_of_fmap in Hin as ([k w] & -> & Hin). simpl.
    destruct (Hitem k w) as [-> _]; [apply elem_of_app; by left|].
    apply H1 in Hin. done.
Qed.


(** ** The scenarios of the process above *)

Example sample_top_publisher :
  Magazine.top_publisher sample = (Ret (Some 1), sample).
Proof. reflexivity. Qed.

Example sample_contributing_authors :
  Magazine.contributing_authors 1 sample = (Ret (Some [0]), sample) ∧
  Magazine.contributing_authors 2 sample = (Ret None, sample).
Proof. split; reflexivity. Qed.

Example tie_counts :
  article_count tie_state 1 = 2%Z ∧ article_count tie_state 2 = 2%Z.
Proof. split; reflexivity. Qed.

Example sample_registries :
  Article_all sample = [3; 4; 5; 6] ∧ Author_all sample = [0] ∧
  Magazine_all sample = [1; 2].
Proof. repeat split. Qed.

Example sample_article_titles :
  Magazine.article_titles 1 sample
  = (Ret (Some ["Spring looks"; "Summer looks"; "Autumn looks"]), sample).
Proof. reflexivity. Qed.

Example short_title_refused :
  Article.__init__ (VRef 0) (VRef 1) (VStr "Hey") sample
  = (Raise (Exception "Title must be between 5 and 50 characters inclusive"), sample).
Proof. reflexivity. Qed.

Example title_not_a_string_refused :
  Article.__init__ (VRef 0) (VRef 1) (VInt 5) sample
  = (Raise (Exception "Title must be a string"), sample).
Proof. reflexivity. Qed.

Example magazine_as_author_refused :
  Article.__init__ (VRef 1) (VRef 1) (VStr "Hello") sample
  = (Raise (Exception "Author must be an instance of Author class"), sample).
Proof. reflexivity. Qed.

Example tie_top_publisher :
  Magazine.top_publisher tie_state = (Ret (Some 2), tie_state).
Proof. reflexivity. Qed.

Example no_articles_topic_areas :
  Author.topic_areas 0 (run [NewAuthor (VStr "Ama")] initial)
  = (Ret None, run [NewAuthor (VStr "Ama")] initial).
Proof. reflexivity. Qed.

(** * The claims *)

(** C1. In every reachable state, constructing an Article succeeds exactly
    when the author is a registered Author, the magazine is a registered
    Magazine and the title is a string of 5 to 50 characters; the new article
    is then appended to [Article.all].  With a title string shorter than 5 or
    longer than 50 characters the constructor raises the program's
    [Exception] (the specification's validation error) and leaves the whole
    state, [Article.all] included, as it was. *)
Theorem Article_construction_iff st author magazine title :
  reachable st →
  ((∃ r st', Article.__init__ author magazine title st = (Ret r, st')) ↔
   registered CAuthor st author ∧ registered CMagazine st magazine ∧
   str_between 5 50 title) ∧
  (∀ r st', Article.__init__ author magazine title st = (Ret r, st') →
     Article_all st' = Article_all st ++ [r] ∧ r ∉ Article_all st) ∧
  (∀ s, title = VStr s → (len s < 5 ∨ 50 < len s)%Z →
     ∃ msg, Article.__init__ author magazine title st = (Raise (Exception msg), st)).
Proof.
  intros Hwf%reachable_wf.
  pose proof (Article_init_spec st author magazine title) as Hs.
  destruct (Article.__init__ author magazine title st) as [[r|e] st1] eqn:E.
  - destruct Hs as (a & m & t & -> & Ha & -> & Hm & -> & Ht & -> & ->).
    split_and!.
    + split; [intros _|eauto]. split_and!.
      * exists a. split; [done|]. by apply (wf_reg _ Hwf CAuthor).
      * exists m. split; [done|]. by apply (wf_reg _ Hwf CMagazine).
      * by exists t.
    + intros r st' [= <- <-]. split; [done|].
      intros Hin%(wf_reg _ Hwf CArticle)%is_a_lt. lia.
    + intros s [= <-] Hl. lia.
  - destruct Hs as (-> & [msg ->] & Hn). split_and!.
    + split; [by intros (? & ? & ?)|].
      intros ((a & -> & Ha) & (m & -> & Hm) & Ht). destruct Hn. split_and!.
      * exists a. split; [done|]. by apply (wf_reg _ Hwf CAuthor).
      * exists m. split; [done|]. by apply (wf_reg _ Hwf CMagazine).
      * done.
    + by intros r st'.
    + intros s -> Hl. by exists msg.
Qed.

Lemma Article_construction_iff_witness :
  reachable sample ∧
  ((∃ r st', Article.__init__ (VRef 0) (VRef 1) (VStr "Hello") sample = (Ret r, st')) ↔
   registered CAuthor sample (VRef 0) ∧ registered CMagazine sample (VRef 1) ∧
   str_between 5 50 (VStr "Hello")) ∧
  (∀ r st', Article.__init__ (VRef 0) (VRef 1) (VStr "Hello") sample = (Ret r, st') →
     Article_all st' = Article_all sample ++ [r] ∧ r ∉ Article_all sample) ∧
  (∀ s, VStr "Hello" = VStr s → (len s < 5 ∨ 50 < len s)%Z →
     ∃ msg, Article.__init__ (VRef 0) (VRef 1) (VStr "Hello") sample
            = (Raise (Exception msg), sample)).
Proof.
  split; [exact sample_reachable|].
  apply (Article_construction_iff sample (VRef 0) (VRef 1) (VStr "Hello")).
  exact sample_reachable.
Defined.

(** C2. For a Magazine [m] of a reachable state, [m.name] has 2 to 16
    characters and keeps a length in that range after any further sequence
    of operations (name assignments, successful or not, among them); an
    assignment of a string of 2 to 16 characters succeeds and makes it the
    name; an assignment of any other value raises the program's [Exception]
    and leaves the state, and with it the name, as it was. *)
Theorem Magazine_name_invariant st m :
  reachable st → m ∈ Magazine_all st →
  (∀ ops, ∃ n, Magazine.name m (run ops st) = (Ret n, run ops st) ∧
               (2 ≤ len n ≤ 16)%Z) ∧
  (∀ s, (2 ≤ len s ≤ 16)%Z →
     ∃ st', Magazine.set_name m (VStr s) st = (Ret tt, st') ∧
            Magazine.name m st' = (Ret s, st')) ∧
  (∀ v, ¬ str_between 2 16 v →
     ∃ msg, Magazine.set_name m v st = (Raise (Exception msg), st)).
Proof.
  intros Hr Hm. pose proof (reachable_wf _ Hr) as Hwf. split_and!.
  - intros ops. destruct (reachable_name (run ops st) m) as (n & Hn & Hl).
    + by apply reachable_run.
    + by apply (run_registry ops st CMagazine).
    + exists n. split; [by apply Magazine_name_returns|done].
  - intros s Hs. pose proof (Magazine_set_name_spec st m (VStr s)) as Hspec.
    destruct (Magazine.set_name m (VStr s) st) as [[[]|e] st'].
    + destruct Hspec as (n & n0 & c & [= <-] & _ & Ho & ->).
      eexists. split; [reflexivity|].
      apply Magazine_name_returns, name_of_store. by eapply lookup_lt_Some.
    + destruct Hspec as (_ & [[_ Hn]|Hn]).
      * destruct Hn. by exists s.
      * destruct Hn. by apply (wf_reg _ Hwf CMagazine).
  - intros v Hv. pose proof (Magazine_set_name_spec st m v) as Hspec.
    destruct (Magazine.set_name m v st) as [[[]|e] st'].
    + destruct Hspec as (n & n0 & c & -> & Hn & _). destruct Hv. by exists n.
    + destruct Hspec as (-> & [[[msg ->] _]|Hn]); [by exists msg|].
      destruct Hn. by apply (wf_reg _ Hwf CMagazine).
Qed.

Lemma Magazine_name_invariant_witness :
  reachable sample ∧ 1 ∈ Magazine_all sample ∧
  (∀ ops, ∃ n, Magazine.name 1 (run ops sample) = (Ret n, run ops sample) ∧
               (2 ≤ len n ≤ 16)%Z) ∧
  (∀ s, (2 ≤ len s ≤ 16)%Z →
     ∃ st', Magazine.set_name 1 (VStr s) sample = (Ret tt, st') ∧
            Magazine.name 1 st' = (Ret s, st')) ∧
  (∀ v, ¬ str_between 2 16 v →
     ∃ msg, Magazine.set_name 1 v sample = (Raise (Exception msg), sample)).
Proof.
  assert (1 ∈ Magazine_all sample) as Hm by (vm_compute; left).
  split; [exact sample_reachable|]. split; [exact Hm|].
  exact (Magazine_name_invariant sample 1 sample_reachable Hm).
Defined.

(** C3. In a reachable state [Magazine.top_publisher()] returns [None] when
    [Article.all] is empty; otherwise it returns a registered Magazine that
    no magazine exceeds in number of articles of [Article.all]. *)
Theorem Magazine_top_publisher_maximal st :
  reachable st →
  (Article_all st = [] → Magazine.top_publisher st = (Ret None, st)) ∧
  (Article_all st ≠ [] →
     ∃ m, Magazine.top_publisher st = (Ret (Some m), st) ∧
          m ∈ Magazine_all st ∧
          ∀ m', (article_count st m' ≤ article_count st m)%Z).
Proof.
  intros Hwf%reachable_wf. split.
  - intros E. pose proof (Magazine_top_publisher_returns st Hwf) as Hret.
    by rewrite E in Hret.
  - intros Hne.
    destruct (top_publisher_analysis st Hwf Hne)
      as (m & pre & r & post & Hret & _ & _ & Hm & Hmax & _).
    by exists m.
Qed.

Lemma Magazine_top_publisher_maximal_witness :
  reachable sample ∧
  (Article_all sample = [] → Magazine.top_publisher sample = (Ret None, sample)) ∧
  (Article_all sample ≠ [] →
     ∃ m, Magazine.top_publisher sample = (Ret (Some m), sample) ∧
          m ∈ Magazine_all sample ∧
          ∀ m', (article_count sample m' ≤ article_count sample m)%Z).
Proof.
  split; [exact sample_reachable|].
  exact (Magazine_top_publisher_maximal sample sample_reachable).
Defined.

(** C4. In a reachable state [contributing_authors()] returns [None] exactly
    when no author has more than 2 articles in the magazine; otherwise it
    returns a list that is never empty, has no duplicates, and holds exactly
    the authors with more than 2 articles in the magazine.  An author with
    exactly 2 is in no result. *)
Theorem Magazine_contributing_authors_exact st self :
  reachable st →
  ∃ res, Magazine.contributing_authors self st = (Ret res, st) ∧
         (res = None ↔ ∀ a, (author_count st self a ≤ 2)%Z) ∧
         (∀ l, res = Some l →
            l ≠ [] ∧ NoDup l ∧ (∀ a, a ∈ l ↔ (2 < author_count st self a)%Z) ∧
            (∀ a, author_count st self a = 2%Z → a ∉ l)).
Proof.
  intros Hwf%reachable_wf.
  eexists. split; [by apply Magazine_contributing_authors_returns|].
  set (ks := (λ r, default 0 (author_of st r)) <$>
               filter (λ r, magazine_of st r = Some self) (Article_all st)).
  set (prolific := (filter (λ item : addr * Z, (2 < item.2)%Z) (fold_left bump ks [])).*1).
  assert (∀ a, a ∈ prolific ↔ (2 < author_count st self a)%Z) as Hin.
  { intros a. rewrite <- (author_count_occurrences st self a Hwf). fold ks.
    unfold prolific. rewrite list_elem_of_fmap. split.
    - intros ([a' v] & -> & [Hv Hitem]%list_elem_of_filter).
      simpl in *. by destruct (counts_elem ks a' v Hitem) as [<- _].
    - intros Ha. exists (a, occurrences a ks). split; [done|].
      apply list_elem_of_filter. split; [done|].
      apply counts_elem_of, occurrences_pos. lia. }
  assert (NoDup prolific) as Hnd.
  { unfold prolific. eapply sublist_NoDup.
    - apply (bump_all_keys_nodup ks []). constructor.
    - apply fmap_sublist, sublist_filter. }
  clearbody prolific. destruct prolific as [|a0 prolific].
  - split; [|done]. split; [intros _ a|done].
    destruct (decide (author_count st self a ≤ 2)%Z) as [|Hgt]; [done|].
    assert (a ∈ @nil addr) as Ha by (apply Hin; lia). by apply elem_of_nil in Ha.
  - split.
    + split; [done|]. intros Hle.
      assert (2 < author_count st self a0)%Z by (apply Hin; left).
      specialize (Hle a0). lia.
    + intros l [= <-]. split_and!; [done|done|exact Hin|].
      intros a Ha Hl. apply Hin in Hl. lia.
Qed.

Lemma Magazine_contributing_authors_exact_witness :
  reachable sample ∧
  ∃ res, Magazine.contributing_authors 1 sample = (Ret res, sample) ∧
         (res = None ↔ ∀ a, (author_count sample 1 a ≤ 2)%Z) ∧
         (∀ l, res = Some l →
            l ≠ [] ∧ NoDup l ∧ (∀ a, a ∈ l ↔ (2 < author_count sample 1 a)%Z) ∧
            (∀ a, author_count sample 1 a = 2%Z → a ∉ l)).
Proof.
  split; [exact sample_reachable|].
  exact (Magazine_contributing_authors_exact sample 1 sample_reachable).
Defined.

(** C5. In a reachable state [author.articles()] returns the articles of
    [Article.all] whose author is [self], no others, each once and in the
    order of [Article.all].  After a successful reassignment of the author of
    an article [r] to [b], the result is as before for every article but
    [r], which is in it exactly when [self] is [b]. *)
Theorem Author_articles_exact st self :
  reachable st →
  ∃ l, Author.articles self st = (Ret l, st) ∧
       (∀ r, r ∈ l ↔ r ∈ Article_all st ∧ author_of st r = Some self) ∧
       l `sublist_of` Article_all st ∧ NoDup l ∧
       (∀ r b st', Article.set_author r (VRef b) st = (Ret tt, st') →
          ∃ l', Author.articles self st' = (Ret l', st') ∧
                l' `sublist_of` Article_all st' ∧
                Article_all st' = Article_all st ∧
                (∀ r', r' ∈ l' ↔ if decide (r' = r) then self = b else r' ∈ l)).
Proof.
  intros Hwf%reachable_wf.
  exists (filter (λ r, author_of st r = Some self) (Article_all st)).
  split; [by apply Author_articles_returns|].
  assert (∀ st0 r, r ∈ filter (λ r, author_of st0 r = Some self) (Article_all st0)
                   ↔ r ∈ Article_all st0 ∧ author_of st0 r = Some self) as Hin.
  { intros st0 r. rewrite list_elem_of_filter. tauto. }
  split; [apply Hin|]. split; [apply sublist_filter|].
  split; [apply NoDup_filter, (wf_nodup _ Hwf CArticle)|].
  intros r b st' E.
  pose proof (effect_Article_set_author st r (VRef b) Hwf) as Heff.
  pose proof (Article_set_author_spec st r (VRef b)) as Hs.
  rewrite E in Heff, Hs. simpl in Heff.
  destruct Hs as (a & t & a0 & m & [= <-] & Ha & Hr & ->).
  pose proof (effect_wf _ _ Hwf Heff) as Hwf'.
  eexists. split; [by apply Author_articles_returns|].
  split; [apply sublist_filter|]. split; [done|].
  intros r'. rewrite !Hin. rewrite author_of_store by by eapply lookup_lt_Some.
  simpl. case_decide as Hd; [|done]. subst r'.
  split; [intros [_ [= ->]]; done|intros ->]. split; [|done].
  apply (wf_reg _ Hwf CArticle). by eexists.
Qed.

Lemma Author_articles_exact_witness :
  reachable sample ∧
  ∃ l, Author.articles 0 sample = (Ret l, sample) ∧
       (∀ r, r ∈ l ↔ r ∈ Article_all sample ∧ author_of sample r = Some 0) ∧
       l `sublist_of` Article_all sample ∧ NoDup l ∧
       (∀ r b st', Article.set_author r (VRef b) sample = (Ret tt, st') →
          ∃ l', Author.articles 0 st' = (Ret l', st') ∧
                l' `sublist_of` Article_all st' ∧
                Article_all st' = Article_all sample ∧
                (∀ r', r' ∈ l' ↔ if decide (r' = r) then 0 = b else r' ∈ l)).
Proof.
  split; [exact sample_reachable|].
  exact (Author_articles_exact sample 0 sample_reachable).
Defined.

(** C6. A constructor or setter that raises leaves the whole state (the
    store and the three lists) exactly as it was: nothing is registered and
    no attribute is changed.  The same holds of every public operation. *)
Theorem no_partial_effect st :
  (∀ n e st', Author.__init__ n st = (Raise e, st') → st' = st) ∧
  (∀ n c e st', Magazine.__init__ n c st = (Raise e, st') → st' = st) ∧
  (∀ a m t e st', Article.__init__ a m t st = (Raise e, st') → st' = st) ∧
  (∀ self v e st', Magazine.set_name self v st = (Raise e, st') → st' = st) ∧
  (∀ self v e st', Magazine.set_category self v st = (Raise e, st') → st' = st) ∧
  (∀ self v e st', Article.set_author self v st = (Raise e, st') → st' = st) ∧
  (∀ self v e st', Article.set_magazine self v st = (Raise e, st') → st' = st) ∧
  (∀ o e st', step o st = (Raise e, st') → st' = st).
Proof.
  assert (∀ A (c : M A) e st', atomic c → c st = (Raise e, st') → st' = st) as Hat.
  { intros A c e st' Hc E. specialize (Hc st e). rewrite E in Hc. by apply Hc. }
  split_and!; intros.
  - eapply Hat; [apply atomic_Author_init|done].
  - eapply Hat; [apply atomic_Magazine_init|done].
  - eapply Hat; [apply atomic_Article_init|done].
  - eapply Hat; [apply atomic_Magazine_set_name|done].
  - eapply Hat; [apply atomic_Magazine_set_category|done].
  - eapply Hat; [apply atomic_Article_set_author|done].
  - eapply Hat; [apply atomic_Article_set_magazine|done].
  - eapply Hat; [apply step_atomic|done].
Qed.

Lemma no_partial_effect_witness :
  (∀ n e st', Author.__init__ n sample = (Raise e, st') → st' = sample) ∧
  (∀ n c e st', Magazine.__init__ n c sample = (Raise e, st') → st' = sample) ∧
  (∀ a m t e st', Article.__init__ a m t sample = (Raise e, st') → st' = sample) ∧
  (∀ self v e st', Magazine.set_name self v sample = (Raise e, st') → st' = sample) ∧
  (∀ self v e st', Magazine.set_category self v sample = (Raise e, st') → st' = sample) ∧
  (∀ self v e st', Article.set_author self v sample = (Raise e, st') → st' = sample) ∧
  (∀ self v e st', Article.set_magazine self v sample = (Raise e, st') → st' = sample) ∧
  (∀ o e st', step o sample = (Raise e, st') → st' = sample).
Proof. exact (no_partial_effect sample). Defined.

(** C7. In a reachable state [topic_areas()] returns [None] exactly when no
    article of [Article.all] has [self] as author; otherwise it returns a
    list that is never empty, has no duplicates, and holds exactly the
    categories of the magazines of the articles of [self].  So [None] and a
    list are never confused. *)
Theorem Author_topic_areas_absent_or_set st self :
  reachable st →
  ∃ res, Author.topic_areas self st = (Ret res, st) ∧
         (res = None ↔ ∀ r, r ∈ Article_all st → author_of st r ≠ Some self) ∧
         (∀ cs, res = Some cs →
            cs ≠ [] ∧ NoDup cs ∧
            ∀ c, c ∈ cs ↔ ∃ r, r ∈ Article_all st ∧ author_of st r = Some self ∧
                               topic_of st r = Some c).
Proof.
  intros Hwf%reachable_wf. eexists. split; [by apply Author_topic_areas_returns|].
  destruct (filter _ _) as [|r0 arts] eqn:E.
  - split; [|done]. split; [intros _ r Hr Ha|done].
    by apply (filter_nil_not_elem_of _ _ r E Ha).
  - assert (∀ r, r ∈ r0 :: arts ↔ r ∈ Article_all st ∧ author_of st r = Some self)
      as Hin by (intros r; rewrite <- E, list_elem_of_filter; tauto).
    split.
    { split; [done|]. intros Hn. destruct (Hn r0); apply Hin; left. }
    intros cs [= <-].
    assert (∀ c, c ∈ elements (list_to_set
                ((λ r, default "" (topic_of st r)) <$> r0 :: arts) : gset string)
            ↔ ∃ r, r ∈ Article_all st ∧ author_of st r = Some self ∧
                   topic_of st r = Some c) as Hcs.
    { intros c. rewrite elem_of_elements, elem_of_list_to_set, list_elem_of_fmap.
      split.
      - intros (r & -> & [Hall Ha]%Hin). exists r. split_and!; [done..|].
        destruct (wf_topic_of st r Hwf Hall) as (m & n & c & _ & _ & ->). done.
      - intros (r & Hall & Ha & Ht). exists r. rewrite Ht. split; [done|].
        by apply Hin. }
    split_and!; [|apply NoDup_elements|exact Hcs].
    intros Hnil.
    destruct (wf_topic_of st r0 Hwf) as (m & n & c & _ & _ & Ht); [apply Hin; left|].
    assert (c ∈ @nil string) as Hc; [|by apply elem_of_nil in Hc].
    rewrite <- Hnil. apply Hcs. exists r0. split_and!; [apply Hin; left..|done].
Qed.

Lemma Author_topic_areas_absent_or_set_witness :
  reachable sample ∧
  ∃ res, Author.topic_areas 0 sample = (Ret res, sample) ∧
         (res = None ↔ ∀ r, r ∈ Article_all sample → author_of sample r ≠ Some 0) ∧
         (∀ cs, res = Some cs →
            cs ≠ [] ∧ NoDup cs ∧
            ∀ c, c ∈ cs ↔ ∃ r, r ∈ Article_all sample ∧ author_of sample r = Some 0 ∧
                               topic_of sample r = Some c).
Proof.
  split; [exact sample_reachable|].
  exact (Author_topic_areas_absent_or_set sample 0 sample_reachable).
Defined.

(** C8. Every article of a reachable state has a title of 5 to 50
    characters, and [article.title] reads the same string after any sequence
    of public operations, the author and magazine setters included; an
    assignment to [title] is refused with [AttributeError] and changes
    nothing. *)
Theorem Article_title_immutable st r :
  reachable st → r ∈ Article_all st →
  ∃ t, Article.title r st = (Ret t, st) ∧ (5 ≤ len t ≤ 50)%Z ∧
       (∀ ops, Article.title r (run ops st) = (Ret t, run ops st)) ∧
       (∀ v, ∃ msg, Article.set_title r v st = (Raise (AttributeError msg), st)).
Proof.
  intros Hwf%reachable_wf Hr.
  destruct (wf_title_of st r Hwf Hr) as (t & Ht & Hl).
  exists t. split; [by apply Article_title_returns|]. split; [done|]. split.
  - intros ops. by apply Article_title_returns, run_title.
  - intros v. by eexists.
Qed.

Lemma Article_title_immutable_witness :
  reachable sample ∧ 3 ∈ Article_all sample ∧
  ∃ t, Article.title 3 sample = (Ret t, sample) ∧ (5 ≤ len t ≤ 50)%Z ∧
       (∀ ops, Article.title 3 (run ops sample) = (Ret t, run ops sample)) ∧
       (∀ v, ∃ msg, Article.set_title 3 v sample = (Raise (AttributeError msg), sample)).
Proof.
  assert (3 ∈ Article_all sample) as Hr by (vm_compute; left).
  split; [exact sample_reachable|]. split; [exact Hr|].
  exact (Article_title_immutable sample 3 sample_reachable Hr).
Defined.



(** C10. The guards look at type and length only.  In a reachable state,
    every string of at least one character is accepted as an Author name and
    as a Magazine category (at construction and by the setter), and every
    string of 2 to 16 characters as a Magazine name (at construction and by
    the setter), whatever its characters: a single space makes an Author and
    a category, two spaces a Magazine name. *)
Theorem validation_checks_length_only st :
  reachable st →
  (∀ s, (1 ≤ len s)%Z →
     ∃ r st', Author.__init__ (VStr s) st = (Ret r, st') ∧
              r ∈ Author_all st' ∧ Author.name r st' = (Ret s, st')) ∧
  (∀ m s, m ∈ Magazine_all st → (1 ≤ len s)%Z →
     ∃ st', Magazine.set_category m (VStr s) st = (Ret tt, st') ∧
            Magazine.category m st' = (Ret s, st')) ∧
  (∀ n c, (2 ≤ len n ≤ 16)%Z → (1 ≤ len c)%Z →
     ∃ r st', Magazine.__init__ (VStr n) (VStr c) st = (Ret r, st') ∧
              r ∈ Magazine_all st' ∧
              Magazine.name r st' = (Ret n, st') ∧
              Magazine.category r st' = (Ret c, st')) ∧
  (∀ m s, m ∈ Magazine_all st → (2 ≤ len s ≤ 16)%Z →
     ∃ st', Magazine.set_name m (VStr s) st = (Ret tt, st') ∧
            Magazine.name m st' = (Ret s, st')) ∧
  (∃ r st', Author.__init__ (VStr " ") st = (Ret r, st')) ∧
  (∃ r st', Magazine.__init__ (VStr "  ") (VStr " ") st = (Ret r, st')).
Proof.
  intros Hwf%reachable_wf.
  assert (∀ s, (1 ≤ len s)%Z →
     ∃ r st', Author.__init__ (VStr s) st = (Ret r, st') ∧
              r ∈ Author_all st' ∧ Author.name r st' = (Ret s, st')) as HA.
  { intros s Hs. unfold Author.__init__.
    apply len_positive_true in Hs. rewrite Hs. unfold_m.
    eexists _, _. split; [reflexivity|]. split.
    - simpl. apply elem_of_app. right. left.
    - apply Author_name_returns. simpl.
      rewrite lookup_app_r by lia. by rewrite Nat.sub_diag. }
  assert (∀ n c, (2 ≤ len n ≤ 16)%Z → (1 ≤ len c)%Z →
     ∃ r st', Magazine.__init__ (VStr n) (VStr c) st = (Ret r, st') ∧
              r ∈ Magazine_all st' ∧
              Magazine.name r st' = (Ret n, st') ∧
              Magazine.category r st' = (Ret c, st')) as HM.
  { intros n c Hn Hc. unfold Magazine.__init__.
    apply len_between_true in Hn. apply len_positive_true in Hc.
    rewrite Hn, Hc. unfold_m.
    eexists _, _. split; [reflexivity|]. split; [|split].
    - simpl. apply elem_of_app. right. left.
    - apply Magazine_name_returns. unfold name_of. simpl.
      rewrite lookup_app_r by lia. by rewrite Nat.sub_diag.
    - apply Magazine_category_returns. unfold category_of. simpl.
      rewrite lookup_app_r by lia. by rewrite Nat.sub_diag. }
  split; [exact HA|]. split; [|split; [exact HM|split; [|split]]].
  - intros m s Hm Hs. destruct (wf_magazine st m Hwf Hm) as (n & c & Ho & _).
    unfold Magazine.set_category. apply len_positive_true in Hs. rewrite Hs.
    unfold_m. rewrite Ho. eexists. split; [reflexivity|].
    apply Magazine_category_returns, category_of_store. by eapply lookup_lt_Some.
  - intros m s Hm Hs. destruct (wf_magazine st m Hwf Hm) as (n & c & Ho & _).
    unfold Magazine.set_name. apply len_between_true in Hs. rewrite Hs.
    unfold_m. rewrite Ho. eexists. split; [reflexivity|].
    apply Magazine_name_returns, name_of_store. by eapply lookup_lt_Some.
  - destruct (HA " ") as (r & st' & E & _); [done|]. eauto.
  - destruct (HM "  " " ") as (r & st' & E & _); [done..|]. eauto.
Qed.

Lemma validation_checks_length_only_witness :
  reachable sample ∧
  (∀ s, (1 ≤ len s)%Z →
     ∃ r st', Author.__init__ (VStr s) sample = (Ret r, st') ∧
              r ∈ Author_all st' ∧ Author.name r st' = (Ret s, st')) ∧
  (∀ m s, m ∈ Magazine_all sample → (1 ≤ len s)%Z →
     ∃ st', Magazine.set_category m (VStr s) sample = (Ret tt, st') ∧
            Magazine.category m st' = (Ret s, st')) ∧
  (∀ n c, (2 ≤ len n ≤ 16)%Z → (1 ≤ len c)%Z →
     ∃ r st', Magazine.__init__ (VStr n) (VStr c) sample = (Ret r, st') ∧
              r ∈ Magazine_all st' ∧
              Magazine.name r st' = (Ret n, st') ∧
              Magazine.category r st' = (Ret c, st')) ∧
  (∀ m s, m ∈ Magazine_all sample → (2 ≤ len s ≤ 16)%Z →
     ∃ st', Magazine.set_name m (VStr s) sample = (Ret tt, st') ∧
            Magazine.name m st' = (Ret s, st')) ∧
  (∃ r st', Author.__init__ (VStr " ") sample = (Ret r, st')) ∧
  (∃ r st', Magazine.__init__ (VStr "  ") (VStr " ") sample = (Ret r, st')).
Proof.
  split; [exact sample_reachable|].
  exact (validation_checks_length_only sample sample_reachable).
Defined.

(** * Further properties of the three classes *)

(** ** One write per operation *)

Lemma mutation_of_pure {A} (c : M A) st : pure_m c → mutation st (c st).2.
Proof. intros ->. constructor. Qed.

Lemma mutation_Article_init st a m t : mutation st (Article.__init__ a m t st).2.
Proof.
  pose proof (Article_init_spec st a m t) as Hs.
  destruct (Article.__init__ a m t st) as [[r|e] st']; simpl.
  - destruct Hs as (a' & m' & t' & _ & Ha & _ & Hm & _ & Ht & -> & ->).
    by apply (mut_new st (OArticle t' a' m')).
  - destruct Hs as [-> _]. constructor.
Qed.

Lemma mutation_Author_add_article st self m t :
  mutation st (Author.add_article self m t st).2.
Proof.
  pose proof (Author_add_article_spec st self m t) as Hs.
  destruct (Author.add_article self m t st) as [[r|e] st']; simpl.
  - destruct Hs as (m' & t' & Ha & _ & Hm & _ & Ht & -> & ->).
    by apply (mut_new st (OArticle t' self m')).
  - destruct Hs as [-> _]. constructor.
Qed.

Lemma mutation_Author_init st n : mutation st (Author.__init__ n st).2.
Proof.
  pose proof (Author_init_spec st n) as Hs.
  destruct (Author.__init__ n st) as [[r|e] st']; simpl.
  - destruct Hs as (n' & _ & Hn & -> & ->).
    apply (mut_new st (OAuthor n')). simpl. lia.
  - destruct Hs as [-> _]. constructor.
Qed.

Lemma mutation_Magazine_init st n c : mutation st (Magazine.__init__ n c st).2.
Proof.
  pose proof (Magazine_init_spec st n c) as Hs.
  destruct (Magazine.__init__ n c st) as [[r|e] st']; simpl.
  - destruct Hs as (n' & c' & _ & Hn & _ & Hc & -> & ->).
    apply (mut_new st (OMagazine n' c')). simpl. lia.
  - destruct Hs as [-> _]. constructor.
Qed.

Lemma mutation_Article_set_author st self v :
  mutation st (Article.set_author self v st).2.
Proof.
  pose proof (Article_set_author_spec st self v) as Hs.
  destruct (Article.set_author self v st) as [[r|e] st']; simpl.
  - destruct Hs as (a & t & a0 & m & _ & Ha & Hself & ->). by eapply mut_author.
  - destruct Hs as [-> _]. constructor.
Qed.

Lemma mutation_Article_set_magazine st self v :
  mutation st (Article.set_magazine self v st).2.
Proof.
  pose proof (Article_set_magazine_spec st self v) as Hs.
  destruct (Article.set_magazine self v st) as [[r|e] st']; simpl.
  - destruct Hs as (m & t & a & m0 & _ & Hm & Hself & ->). by eapply mut_magazine.
  - destruct Hs as [-> _]. constructor.
Qed.

Lemma mutation_Magazine_set_name st self v :
  mutation st (Magazine.set_name self v st).2.
Proof.
  pose proof (Magazine_set_name_spec st self v) as Hs.
  destruct (Magazine.set_name self v st) as [[r|e] st']; simpl.
  - destruct Hs as (n & n0 & c & _ & Hn & Hself & ->). by eapply mut_name.
  - destruct Hs as [-> _]. constructor.
Qed.

Lemma mutation_Magazine_set_category st self v :
  mutation st (Magazine.set_category self v st).2.
Proof.
  pose proof (Magazine_set_category_spec st self v) as Hs.
  destruct (Magazine.set_category self v st) as [[r|e] st']; simpl.
  - destruct Hs as (c & n & c0 & _ & Hc & Hself & ->). by eapply mut_category.
  - destruct Hs as [-> _]. constructor.
Qed.

Lemma step_mutation st o : mutation st (step o st).2.
Proof.
  destruct o; unfold step; rewrite fmap_m_snd;
    first [ apply mutation_of_pure; solve [auto with pure]
          | apply mutation_Article_init | apply mutation_Author_init
          | apply mutation_Magazine_init | apply mutation_Author_add_article
          | apply mutation_Article_set_author
          | apply mutation_Article_set_magazine
          | apply mutation_Magazine_set_name
          | apply mutation_Magazine_set_category ].
Qed.

Lemma mutation_registry_prefix st st' c :
  mutation st st' → registry c st `prefix_of` registry c st'.
Proof.
  intros [|o Ho|r t a m b Hr Hb|r t a m m' Hr Hm|m n c0 n' Hm Hn|m n c0 c' Hm Hc];
    try (by destruct c).
  rewrite registry_register. case_decide; [|done]. by apply prefix_app_r.
Qed.

Lemma mutation_author_kept st st' a n :
  mutation st st' → heap st !! a = Some (OAuthor n) → heap st' !! a = Some (OAuthor n).
Proof.
  intros [|o Ho|r t b m b' Hr Hb|r t b m m' Hr Hm|m n0 c0 n' Hm Hn|m n0 c0 c' Hm Hc] Ha;
    [done|..]; simpl.
  - rewrite heap_register. simpl. by apply lookup_app_l_Some.
  - rewrite list_lookup_insert_ne; [done|]. intros ->. congruence.
  - rewrite list_lookup_insert_ne; [done|]. intros ->. congruence.
  - rewrite list_lookup_insert_ne; [done|]. intros ->. congruence.
  - rewrite list_lookup_insert_ne; [done|]. intros ->. congruence.
Qed.

Lemma run_registry_prefix ops st c : registry c st `prefix_of` registry c (run ops st).
Proof.
  revert st. induction ops as [|o ops IH]; intros st; [done|].
  simpl. etrans; [|apply IH]. apply mutation_registry_prefix, step_mutation.
Qed.

Lemma run_author_kept ops st a n :
  heap st !! a = Some (OAuthor n) → heap (run ops st) !! a = Some (OAuthor n).
Proof.
  revert st. induction ops as [|o ops IH]; intros st Ha; [done|].
  simpl. apply IH. eapply mutation_author_kept; [apply step_mutation|done].
Qed.

Lemma wf_author st a :
  wf st → a ∈ Author_all st → ∃ n, heap st !! a = Some (OAuthor n) ∧ (1 ≤ len n)%Z.
Proof.
  intros Hwf Ha. apply (wf_reg _ Hwf CAuthor) in Ha as (o & Ho & Hc).
  destruct o as [n| |]; try done.
  pose proof (wf_obj _ Hwf _ _ Ho) as Hn. simpl in Hn.
  exists n. split; [done|lia].
Qed.

(** X1. The three lists only grow: after any sequence of public operations
    each of [Article.all], [Author.all] and [Magazine.all] starts with what
    it held before, in the same order. *)
Theorem registries_append_only st ops :
  Article_all st `prefix_of` Article_all (run ops st) ∧
  Author_all st `prefix_of` Author_all (run ops st) ∧
  Magazine_all st `prefix_of` Magazine_all (run ops st).
Proof.
  split_and!.
  - apply (run_registry_prefix ops st CArticle).
  - apply (run_registry_prefix ops st CAuthor).
  - apply (run_registry_prefix ops st CMagazine).
Qed.

(** X2. The name of an author of a reachable state has at least one
    character and [author.name] reads the same string after any sequence of
    public operations; an assignment to [name] is refused with
    [AttributeError] and changes nothing. *)
Theorem Author_name_immutable st a :
  reachable st → a ∈ Author_all st →
  ∃ n, Author.name a st = (Ret n, st) ∧ (1 ≤ len n)%Z ∧
       (∀ ops, Author.name a (run ops st) = (Ret n, run ops st)) ∧
       (∀ v, ∃ msg, Author.set_name a v st = (Raise (AttributeError msg), st)).
Proof.
  intros Hwf%reachable_wf Ha.
  destruct (wf_author st a Hwf Ha) as (n & Ho & Hn).
  exists n. split; [by apply Author_name_returns|]. split; [done|]. split.
  - intros ops. by apply Author_name_returns, run_author_kept.
  - intros v. by eexists.
Qed.

Lemma Author_name_immutable_witness :
  reachable sample ∧ 0 ∈ Author_all sample ∧
  ∃ n, Author.name 0 sample = (Ret n, sample) ∧ (1 ≤ len n)%Z ∧
       (∀ ops, Author.name 0 (run ops sample) = (Ret n, run ops sample)) ∧
       (∀ v, ∃ msg, Author.set_name 0 v sample = (Raise (AttributeError msg), sample)).
Proof.
  assert (0 ∈ Author_all sample) as Ha by (vm_compute; left).
  split; [exact sample_reachable|]. split; [exact Ha|].
  exact (Author_name_immutable sample 0 sample_reachable Ha).
Defined.

Lemma queries_step_pure o : is_query o = true → pure_m (step o).
Proof.
  destruct o; simpl; try discriminate; intros _; unfold fmap_m;
    apply pure_bind; solve [auto with pure | intros; apply pure_ret].
Qed.

(** X3. No getter and no query writes: whatever it answers, and also when
    it raises, the store and the three lists are as they were. *)
Theorem queries_never_write st o :
  is_query o = true → (step o st).2 = st.
Proof. intros Hq. by apply queries_step_pure. Qed.

Lemma queries_never_write_witness :
  is_query (MagazineContributingAuthors 1) = true ∧
  (step (MagazineContributingAuthors 1) sample).2 = sample.
Proof.
  split; [reflexivity|].
  exact (queries_never_write sample (MagazineContributingAuthors 1) eq_refl).
Defined.

(** ** The other relationship queries *)

Lemma Author_magazines_returns st self :
  wf st →
  returns st (Author.magazines self)
    (elements (list_to_set ((λ r, default 0 (magazine_of st r)) <$>
                 filter (λ r, author_of st r = Some self) (Article_all st))
               : gset addr)).
Proof.
  intros Hwf. unfold Author.magazines.
  eapply returns_bind; [by apply Author_articles_returns|].
  eapply returns_bind; [|apply returns_ret].
  apply list_comp_all_returns. intros r [_ Hr]%list_elem_of_filter.
  destruct (wf_magazine_of st r Hwf Hr) as (m & Hm & _).
  rewrite Hm. by apply Article_magazine_returns.
Qed.

Lemma Magazine_contributors_returns st self :
  wf st →
  returns st (Magazine.contributors self)
    (elements (list_to_set ((λ r, default 0 (author_of st r)) <$>
                 filter (λ r, magazine_of st r = Some self) (Article_all st))
               : gset addr)).
Proof.
  intros Hwf. unfold Magazine.contributors.
  eapply returns_bind; [by apply Magazine_articles_returns|].
  eapply returns_bind; [|apply returns_ret].
  apply list_comp_all_returns. intros r [_ Hr]%list_elem_of_filter.
  destruct (wf_author_of st r Hwf Hr) as (a & Ha & _).
  rewrite Ha. by apply Article_author_returns.
Qed.

Lemma Magazine_article_titles_returns st self :
  wf st →
  returns st (Magazine.article_titles self)
    (match filter (λ r, magazine_of st r = Some self) (Article_all st) with
     | [] => None
     | arts => Some ((λ r, default "" (title_of st r)) <$> arts)
     end).
Proof.
  intros Hwf. unfold Magazine.article_titles.
  eapply returns_bind; [by apply Magazine_articles_returns|].
  destruct (filter _ _) as [|r0 arts] eqn:E; [apply returns_ret|].
  eapply returns_bind; [|apply returns_ret].
  apply list_comp_all_returns. intros r Hr.
  assert (r ∈ Article_all st) as Hall.
  { rewrite <- E in Hr. by apply list_elem_of_filter in Hr as [_ ?]. }
  destruct (wf_title_of st r Hwf Hall) as (t & Ht & _).
  rewrite Ht. by apply Article_title_returns.
Qed.

(** X4. In a reachable state [author.magazines()] returns a list without
    duplicates of exactly the magazines of the articles of [self], all of
    them registered; for an author without articles it is the empty list,
    where [topic_areas()] answers [None]. *)
Theorem Author_magazines_exact st self :
  reachable st →
  ∃ l, Author.magazines self st = (Ret l, st) ∧ NoDup l ∧
       (∀ m, m ∈ l ↔ ∃ r, r ∈ Article_all st ∧ author_of st r = Some self ∧
                          magazine_of st r = Some m) ∧
       (∀ m, m ∈ l → m ∈ Magazine_all st) ∧
       (l = [] ↔ Author.topic_areas self st = (Ret None, st)).
Proof.
  intros Hwf%reachable_wf. eexists.
  split; [by apply Author_magazines_returns|]. split; [apply NoDup_elements|].
  set (arts := filter (λ r, author_of st r = Some self) (Article_all st)).
  assert (∀ m, m ∈ elements (list_to_set
            ((λ r, default 0 (magazine_of st r)) <$> arts) : gset addr)
          ↔ ∃ r, r ∈ Article_all st ∧ author_of st r = Some self ∧
                 magazine_of st r = Some m) as Hin.
  { intros m. rewrite elem_of_elements, elem_of_list_to_set, list_elem_of_fmap.
    split.
    - intros (r & -> & [Ha Hall]%list_elem_of_filter). exists r.
      destruct (wf_magazine_of st r Hwf Hall) as (m & -> & _). done.
    - intros (r & Hall & Ha & Hm). exists r. rewrite Hm. split; [done|].
      by apply list_elem_of_filter. }
  split; [exact Hin|]. split.
  - intros m (r & Hall & _ & Hm)%Hin.
    destruct (wf_magazine_of st r Hwf Hall) as (m' & Hm' & Hreg). congruence.
  - pose proof (Author_topic_areas_returns st self Hwf) as Hta.
    fold arts in Hta. unfold returns in Hta. rewrite Hta.
    destruct arts as [|r0 arts'] eqn:E.
    + split; [done|intros _]. simpl. apply elements_empty.
    + split; [|done]. intros Hnil.
      assert (r0 ∈ filter (λ r, author_of st r = Some self) (Article_all st))
        as [Ha Hall]%list_elem_of_filter by (fold arts; rewrite E; left).
      destruct (wf_magazine_of st r0 Hwf Hall) as (m & Hm & _).
      assert (m ∈ @nil addr) as Hm'; [|by apply elem_of_nil in Hm'].
      rewrite <- Hnil. apply Hin. by exists r0.
Qed.

Lemma Author_magazines_exact_witness :
  reachable sample ∧
  ∃ l, Author.magazines 0 sample = (Ret l, sample) ∧ NoDup l ∧
       (∀ m, m ∈ l ↔ ∃ r, r ∈ Article_all sample ∧ author_of sample r = Some 0 ∧
                          magazine_of sample r = Some m) ∧
       (∀ m, m ∈ l → m ∈ Magazine_all sample) ∧
       (l = [] ↔ Author.topic_areas 0 sample = (Ret None, sample)).
Proof.
  split; [exact sample_reachable|].
  exact (Author_magazines_exact sample 0 sample_reachable).
Defined.

(** X5. In a reachable state [magazine.contributors()] returns a list
    without duplicates of exactly the authors of the articles of the
    magazine, all of them registered. *)
Theorem Magazine_contributors_exact st self :
  reachable st →
  ∃ l, Magazine.contributors self st = (Ret l, st) ∧ NoDup l ∧
       (∀ a, a ∈ l ↔ ∃ r, r ∈ Article_all st ∧ magazine_of st r = Some self ∧
                          author_of st r = Some a) ∧
       (∀ a, a ∈ l → a ∈ Author_all st).
Proof.
  intros Hwf%reachable_wf. eexists.
  split; [by apply Magazine_contributors_returns|]. split; [apply NoDup_elements|].
  assert (∀ a, a ∈ elements (list_to_set
            ((λ r, default 0 (author_of st r)) <$>
               filter (λ r, magazine_of st r = Some self) (Article_all st)) : gset addr)
          ↔ ∃ r, r ∈ Article_all st ∧ magazine_of st r = Some self ∧
                 author_of st r = Some a) as Hin.
  { intros a. rewrite elem_of_elements, elem_of_list_to_set, list_elem_of_fmap.
    split.
    - intros (r & -> & [Hm Hall]%list_elem_of_filter). exists r.
      destruct (wf_author_of st r Hwf Hall) as (a & -> & _). done.
    - intros (r & Hall & Hm & Ha). exists r. rewrite Ha. split; [done|].
      by apply list_elem_of_filter. }
  split; [exact Hin|].
  intros a (r & Hall & _ & Ha)%Hin.
  destruct (wf_author_of st r Hwf Hall) as (a' & Ha' & Hreg). congruence.
Qed.

Lemma Magazine_contributors_exact_witness :
  reachable sample ∧
  ∃ l, Magazine.contributors 1 sample = (Ret l, sample) ∧ NoDup l ∧
       (∀ a, a ∈ l ↔ ∃ r, r ∈ Article_all sample ∧ magazine_of sample r = Some 1 ∧
                          author_of sample r = Some a) ∧
       (∀ a, a ∈ l → a ∈ Author_all sample).
Proof.
  split; [exact sample_reachable|].
  exact (Magazine_contributors_exact sample 1 sample_reachable).
Defined.

Lemma Forall2_fmap_self {A B} (P : A → B → Prop) (f : A → B) (l : list A) :
  (∀ x, x ∈ l → P x (f x)) → Forall2 P l (f <$> l).
Proof.
  induction l as [|x l IH]; intros H; [constructor|].
  rewrite fmap_cons. constructor; [apply H; left|].
  apply IH. intros y Hy. apply H. by right.
Qed.

(** X6. In a reachable state [magazine.article_titles()] returns [None]
    exactly when [magazine.articles()] is empty; otherwise it returns the
    titles of [magazine.articles()], one per article and in the same order
    (equal titles are kept), each of 5 to 50 characters. *)
Theorem Magazine_article_titles_exact st self :
  reachable st →
  ∃ arts res,
    Magazine.articles self st = (Ret arts, st) ∧
    Magazine.article_titles self st = (Ret res, st) ∧
    (res = None ↔ arts = []) ∧
    (∀ ts, res = Some ts →
       Forall2 (λ r t, Article.title r st = (Ret t, st) ∧ (5 ≤ len t ≤ 50)%Z) arts ts).
Proof.
  intros Hwf%reachable_wf. eexists _, _.
  split; [by apply Magazine_articles_returns|].
  split; [by apply Magazine_article_titles_returns|].
  assert (∀ r, r ∈ filter (λ r, magazine_of st r = Some self) (Article_all st) →
               r ∈ Article_all st) as Hsub.
  { intros r Hr. by apply list_elem_of_filter in Hr as [_ ?]. }
  destruct (filter _ _) as [|r0 arts]; [done|]. split; [done|].
  intros ts [= <-].
  apply (Forall2_fmap_self _ (λ r, default "" (title_of st r)) (r0 :: arts)).
  intros r Hr. destruct (wf_title_of st r Hwf (Hsub r Hr)) as (t & Ht & Hl).
  rewrite Ht. split; [by apply Article_title_returns|done].
Qed.

Lemma Magazine_article_titles_exact_witness :
  reachable sample ∧
  ∃ arts res,
    Magazine.articles 1 sample = (Ret arts, sample) ∧
    Magazine.article_titles 1 sample = (Ret res, sample) ∧
    (res = None ↔ arts = []) ∧
    (∀ ts, res = Some ts →
       Forall2 (λ r t, Article.title r sample = (Ret t, sample) ∧ (5 ≤ len t ≤ 50)%Z)
         arts ts).
Proof.
  split; [exact sample_reachable|].
  exact (Magazine_article_titles_exact sample 1 sample_reachable).
Defined.

(** ** The constructors of Author and Magazine *)

(** X7. In a reachable state constructing an Author succeeds exactly when
    the name is a string of at least one character.  The new author is then
    appended to [Author.all], is none of the authors already there (also
    when it has the name of one), and has the given name; the other two
    lists are untouched.  Otherwise [Exception] is raised, with the message
    for a non-string or for an empty string, and nothing changes. *)
Theorem Author_construction_iff st name :
  reachable st →
  ((∃ r st', Author.__init__ name st = (Ret r, st')) ↔ str_at_least 1 name) ∧
  (∀ r st', Author.__init__ name st = (Ret r, st') →
     Author_all st' = Author_all st ++ [r] ∧ (r ∉ Author_all st) ∧
     Article_all st' = Article_all st ∧ Magazine_all st' = Magazine_all st ∧
     ∃ n, name = VStr n ∧ Author.name r st' = (Ret n, st')) ∧
  (∀ e st', Author.__init__ name st = (Raise e, st') →
     st' = st ∧
     e = Exception match name with
                   | VStr _ => "Name must be longer than 0 characters"
                   | _ => "Name must be a string"
                   end).
Proof.
  intros Hwf%reachable_wf.
  pose proof (Author_init_spec st name) as Hs.
  destruct (Author.__init__ name st) as [[r|e] st1] eqn:E.
  - destruct Hs as (n & -> & Hn & -> & ->). split; [|split].
    + split; [intros _; by exists n|eauto].
    + intros r st' [= <- <-]. split_and!; try done.
      * intros Hin%(wf_reg _ Hwf CAuthor)%is_a_lt. lia.
      * exists n. split; [done|]. apply Author_name_returns. simpl.
        rewrite lookup_app_r by lia. by rewrite Nat.sub_diag.
    + by intros e st'.
  - destruct Hs as (-> & _ & Hn). split; [|split].
    + split; [by intros (? & ? & ?)|done].
    + by intros r st'.
    + intros e' st' [= <- <-]. split; [done|].
      unfold Author.__init__ in E. unfold_m.
      destruct name as [| | |n|]; try by injection E as <-.
      destruct (len n <=? 0)%Z; [by injection E as <-|done].
Qed.

Lemma Author_construction_iff_witness :
  reachable sample ∧
  ((∃ r st', Author.__init__ (VStr "Ama") sample = (Ret r, st')) ↔
   str_at_least 1 (VStr "Ama")) ∧
  (∀ r st', Author.__init__ (VStr "Ama") sample = (Ret r, st') →
     Author_all st' = Author_all sample ++ [r] ∧ (r ∉ Author_all sample) ∧
     Article_all st' = Article_all sample ∧ Magazine_all st' = Magazine_all sample ∧
     ∃ n, VStr "Ama" = VStr n ∧ Author.name r st' = (Ret n, st')) ∧
  (∀ e st', Author.__init__ (VStr "Ama") sample = (Raise e, st') →
     st' = sample ∧ e = Exception "Name must be longer than 0 characters").
Proof.
  split; [exact sample_reachable|].
  exact (Author_construction_iff sample (VStr "Ama") sample_reachable).
Defined.

(** X8. In a reachable state constructing a Magazine succeeds exactly when
    the name is a string of 2 to 16 characters and the category a string of
    at least one character.  The new magazine is then appended to
    [Magazine.all], is none of those already there, and has the given name
    and category.  Otherwise [Exception] is raised and nothing changes; the
    name is checked before the category, so with a bad name the message is
    about the name whatever the category is. *)
Theorem Magazine_construction_iff st name category :
  reachable st →
  ((∃ r st', Magazine.__init__ name category st = (Ret r, st')) ↔
   str_between 2 16 name ∧ str_at_least 1 category) ∧
  (∀ r st', Magazine.__init__ name category st = (Ret r, st') →
     Magazine_all st' = Magazine_all st ++ [r] ∧ (r ∉ Magazine_all st) ∧
     Article_all st' = Article_all st ∧ Author_all st' = Author_all st ∧
     ∃ n c, name = VStr n ∧ category = VStr c ∧
            Magazine.name r st' = (Ret n, st') ∧
            Magazine.category r st' = (Ret c, st')) ∧
  (∀ e st', Magazine.__init__ name category st = (Raise e, st') →
     st' = st ∧
     ((∀ n, name ≠ VStr n) → e = Exception "Name must be a string") ∧
     (∀ n, name = VStr n → ¬ (2 ≤ len n ≤ 16)%Z →
        e = Exception "Name must be between 2 and 16 characters inclusive") ∧
     (str_between 2 16 name → (∀ c, category ≠ VStr c) →
        e = Exception "Category must be a string") ∧
     (str_between 2 16 name → (∃ c, category = VStr c) →
        e = Exception "Category must be longer than 0 characters")).
Proof.
  intros Hwf%reachable_wf.
  pose proof (Magazine_init_spec st name category) as Hs.
  destruct (Magazine.__init__ name category st) as [[r|e] st1] eqn:E.
  - destruct Hs as (n & c & -> & Hn & -> & Hc & -> & ->). split; [|split].
    + split; [intros _|eauto]. split; [by exists n|by exists c].
    + intros r st' [= <- <-]. split_and!; try done.
      * intros Hin%(wf_reg _ Hwf CMagazine)%is_a_lt. lia.
      * exists n, c. split; [done|]. split; [done|]. split.
        -- apply Magazine_name_returns. unfold name_of. simpl.
           rewrite lookup_app_r by lia. by rewrite Nat.sub_diag.
        -- apply Magazine_category_returns. unfold category_of. simpl.
           rewrite lookup_app_r by lia. by rewrite Nat.sub_diag.
    + by intros e st'.
  - destruct Hs as (-> & _ & Hn). split; [|split].
    + split; [by intros (? & ? & ?)|done].
    + by intros r st'.
    + intros e' st' [= <- <-]. split; [done|].
      unfold Magazine.__init__ in E. unfold_m.
      destruct name as [| | |n|];
        try (injection E as <-; split_and!;
             [done|by intros ? [=]|by intros (? & [=] & _)..]).
      destruct (negb _) eqn:En.
      { injection E as <-. split_and!.
        - intros H. by destruct (H n).
        - done.
        - intros (? & [= <-] & Hl). apply len_between_true in Hl. congruence.
        - intros (? & [= <-] & Hl). apply len_between_true in Hl. congruence. }
      apply len_between_true in En.
      destruct category as [| | |c|];
        try (injection E as <-; split_and!;
             [intros H; by destruct (H n)|by intros ? [= <-] ?|done
             |by intros _ (? & [=])]).
      destruct (len c <=? 0)%Z; [injection E as <-|done].
      split_and!; [intros H; by destruct (H n)|by intros ? [= <-] ?| |done].
      intros _ H. by destruct (H c).
Qed.

Lemma Magazine_construction_iff_witness :
  reachable sample ∧
  ((∃ r st', Magazine.__init__ (VStr "V") VNone sample = (Ret r, st')) ↔
   str_between 2 16 (VStr "V") ∧ str_at_least 1 VNone) ∧
  (∀ r st', Magazine.__init__ (VStr "V") VNone sample = (Ret r, st') →
     Magazine_all st' = Magazine_all sample ++ [r] ∧ (r ∉ Magazine_all sample) ∧
     Article_all st' = Article_all sample ∧ Author_all st' = Author_all sample ∧
     ∃ n c, VStr "V" = VStr n ∧ VNone = VStr c ∧
            Magazine.name r st' = (Ret n, st') ∧
            Magazine.category r st' = (Ret c, st')) ∧
  (∀ e st', Magazine.__init__ (VStr "V") VNone sample = (Raise e, st') →
     st' = sample ∧
     ((∀ n, VStr "V" ≠ VStr n) → e = Exception "Name must be a string") ∧
     (∀ n, VStr "V" = VStr n → ¬ (2 ≤ len n ≤ 16)%Z →
        e = Exception "Name must be between 2 and 16 characters inclusive") ∧
     (str_between 2 16 (VStr "V") → (∀ c, VNone ≠ VStr c) →
        e = Exception "Category must be a string") ∧
     (str_between 2 16 (VStr "V") → (∃ c, VNone = VStr c) →
        e = Exception "Category must be longer than 0 characters")).
Proof.
  split; [exact sample_reachable|].
  exact (Magazine_construction_iff sample (VStr "V") VNone sample_reachable).
Defined.

(** ** New articles *)

Lemma filter_ext_in {A} (P Q : A → Prop) `{∀ x, Decision (P x)} `{∀ x, Decision (Q x)}
    (l : list A) :
  (∀ x, x ∈ l → (P x ↔ Q x)) → filter P l = filter Q l.
Proof.
  induction l as [|x l IH]; intros Hext; [done|].
  rewrite !filter_cons, IH by (intros y Hy; apply Hext; by right).
  specialize (Hext x (list_elem_of_here _ _)).
  destruct (decide (P x)); [rewrite decide_True by tauto|rewrite decide_False by tauto];
    done.
Qed.

Lemma heap_new_lookup st o r :
  heap (register (class_of o) (length (heap st)) (alloc o st).2) !! r =
  if decide (r = length (heap st)) then Some o else heap st !! r.
Proof.
  rewrite heap_register. simpl. case_decide as Hr.
  - subst. rewrite lookup_app_r by lia. by rewrite Nat.sub_diag.
  - destruct (decide (r < length (heap st))).
    + by rewrite lookup_app_l.
    + rewrite !lookup_ge_None_2; [done|lia|]. rewrite length_app. simpl. lia.
Qed.

Lemma Author_add_article_is_constructor st self magazine title :
  is_a CAuthor (heap st) self →
  Author.add_article self magazine title st =
  Article.__init__ (VRef self) magazine title st.
Proof.
  intros Ha.
  assert (instance_of CAuthor (VRef self) (heap st) = Some self) as Hself
    by by apply instance_of_Some.
  unfold Author.add_article, Article.__init__, isinstance, read, bind, ret, raise.
  destruct (instance_of CMagazine magazine (heap st)) as [m|] eqn:Em;
    cbv beta; rewrite ?Hself, ?Em; [|done].
  destruct title as [| | |t|]; try done. by destruct (negb _).
Qed.

(** X9. For a registered author, [author.add_article(magazine, title)] is
    exactly [Article(author, magazine, title)]: the same article, the same
    final state, and on failure the same exception, so the check of the
    magazine that [add_article] makes first never decides anything. *)
Theorem Author_add_article_constructs st self magazine title :
  reachable st → self ∈ Author_all st →
  Author.add_article self magazine title st =
  Article.__init__ (VRef self) magazine title st.
Proof.
  intros Hwf%reachable_wf Ha. apply Author_add_article_is_constructor.
  by apply (wf_reg _ Hwf CAuthor).
Qed.

Lemma Author_add_article_constructs_witness :
  reachable sample ∧ 0 ∈ Author_all sample ∧
  Author.add_article 0 (VRef 0) (VStr "Winter looks") sample =
  Article.__init__ (VRef 0) (VRef 0) (VStr "Winter looks") sample.
Proof.
  assert (0 ∈ Author_all sample) as Ha by (vm_compute; left).
  split; [exact sample_reachable|]. split; [exact Ha|].
  exact (Author_add_article_constructs sample 0 (VRef 0) (VStr "Winter looks")
           sample_reachable Ha).
Defined.

(** X10. When [Article(a, m, t)] succeeds in a reachable state, the new
    article reads back [a], [m] and [t]; it becomes the last element of
    [a.articles()] and of [m.articles()], and the [articles()] of every other
    author and magazine are as before. *)
Theorem Article_construction_links st a m t r st' :
  reachable st →
  Article.__init__ (VRef a) (VRef m) (VStr t) st = (Ret r, st') →
  Article.author r st' = (Ret a, st') ∧
  Article.magazine r st' = (Ret m, st') ∧
  Article.title r st' = (Ret t, st') ∧
  (∀ x, ∃ l, Author.articles x st = (Ret l, st) ∧
             Author.articles x st' = (Ret (if decide (x = a) then l ++ [r] else l), st')) ∧
  (∀ x, ∃ l, Magazine.articles x st = (Ret l, st) ∧
             Magazine.articles x st' = (Ret (if decide (x = m) then l ++ [r] else l), st')).
Proof.
  intros Hwf%reachable_wf E.
  pose proof (effect_Article_init st (VRef a) (VRef m) (VStr t)) as Heff.
  pose proof (Article_init_spec st (VRef a) (VRef m) (VStr t)) as Hs.
  rewrite E in Heff, Hs. simpl in Heff.
  destruct Hs as (a' & m' & t' & [= <-] & Ha & [= <-] & Hm & [= <-] & Ht & -> & ->).
  pose proof (effect_wf _ _ Hwf Heff) as Hwf'.
  set (o := OArticle t a m) in *.
  set (st' := register CArticle (length (heap st)) (alloc o st).2) in *.
  assert (∀ r', heap st' !! r' =
                if decide (r' = length (heap st)) then Some o else heap st !! r')
    as Hlook by apply (heap_new_lookup st o).
  assert (Article_all st' = Article_all st ++ [length (heap st)]) as Hall by done.
  assert (∀ r', r' ∈ Article_all st → heap st' !! r' = heap st !! r') as Hold.
  { intros r' Hr'%(wf_reg _ Hwf CArticle)%is_a_lt. rewrite Hlook.
    rewrite decide_False; [done|lia]. }
  assert (heap st' !! length (heap st) = Some o) as Hnew
    by (by rewrite Hlook, decide_True).
  split_and!.
  - apply Article_author_returns. unfold author_of. by rewrite Hnew.
  - apply Article_magazine_returns. unfold magazine_of. by rewrite Hnew.
  - apply Article_title_returns. unfold title_of. by rewrite Hnew.
  - intros x. eexists. split; [by apply Author_articles_returns|].
    pose proof (Author_articles_returns st' x Hwf') as ->.
    f_equal. f_equal. rewrite Hall, filter_app.
    rewrite (filter_ext_in _ (λ r, author_of st r = Some x) (Article_all st)).
    2:{ intros r' Hr'. unfold author_of. by rewrite Hold. }
    rewrite filter_cons, filter_nil.
    assert (author_of st' (length (heap st)) = Some a) as ->
      by (unfold author_of; by rewrite Hnew).
    destruct (decide (x = a)) as [->|Hne].
    + by rewrite decide_True.
    + rewrite decide_False by congruence. by rewrite app_nil_r.
  - intros x. eexists. split; [by apply Magazine_articles_returns|].
    pose proof (Magazine_articles_returns st' x Hwf') as ->.
    f_equal. f_equal. rewrite Hall, filter_app.
    rewrite (filter_ext_in _ (λ r, magazine_of st r = Some x) (Article_all st)).
    2:{ intros r' Hr'. unfold magazine_of. by rewrite Hold. }
    rewrite filter_cons, filter_nil.
    assert (magazine_of st' (length (heap st)) = Some m) as ->
      by (unfold magazine_of; by rewrite Hnew).
    destruct (decide (x = m)) as [->|Hne].
    + by rewrite decide_True.
    + rewrite decide_False by congruence. by rewrite app_nil_r.
Qed.

Lemma Article_construction_links_witness :
  reachable sample ∧
  Article.__init__ (VRef 0) (VRef 2) (VStr "Hello") sample = (Ret 7, sample_next) ∧
  Article.author 7 sample_next = (Ret 0, sample_next) ∧
  Article.magazine 7 sample_next = (Ret 2, sample_next) ∧
  Article.title 7 sample_next = (Ret "Hello", sample_next) ∧
  (∀ x, ∃ l, Author.articles x sample = (Ret l, sample) ∧
             Author.articles x sample_next
             = (Ret (if decide (x = 0) then l ++ [7] else l), sample_next)) ∧
  (∀ x, ∃ l, Magazine.articles x sample = (Ret l, sample) ∧
             Magazine.articles x sample_next
             = (Ret (if decide (x = 2) then l ++ [7] else l), sample_next)).
Proof.
  split; [exact sample_reachable|]. split; [reflexivity|].
  exact (Article_construction_links sample 0 2 "Hello" 7 sample_next
           sample_reachable eq_refl).
Defined.

(** ** What the queries depend on *)

Lemma Article_reads_ext st st' r :
  heap st' !! r = heap st !! r →
  (Article.author r st').1 = (Article.author r st).1 ∧
  (Article.magazine r st').1 = (Article.magazine r st).1 ∧
  (Article.title r st').1 = (Article.title r st).1.
Proof.
  intros Hr. unfold Article.author, Article.magazine, Article.title. unfold_m.
  rewrite Hr. by destruct (heap st !! r) as [[| |t a m]|].
Qed.

Section links.
Context (st st' : state) (Hwf : wf st) (Hwf' : wf st').
Context (Hall : Article_all st' = Article_all st).

Lemma Author_articles_ext x :
  (∀ r, author_of st' r = author_of st r) →
  (Author.articles x st').1 = (Author.articles x st).1.
Proof.
  intros Ha. rewrite (Author_articles_returns st' x Hwf'),
    (Author_articles_returns st x Hwf), Hall. simpl. f_equal.
  apply list_filter_iff. intros r. by rewrite Ha.
Qed.

Lemma Magazine_articles_ext x :
  (∀ r, magazine_of st' r = magazine_of st r) →
  (Magazine.articles x st').1 = (Magazine.articles x st).1.
Proof.
  intros Hm. rewrite (Magazine_articles_returns st' x Hwf'),
    (Magazine_articles_returns st x Hwf), Hall. simpl. f_equal.
  apply list_filter_iff. intros r. by rewrite Hm.
Qed.

Lemma Magazine_article_titles_ext x :
  (∀ r, magazine_of st' r = magazine_of st r) →
  (∀ r, title_of st' r = title_of st r) →
  (Magazine.article_titles x st').1 = (Magazine.article_titles x st).1.
Proof.
  intros Hm Ht. rewrite (Magazine_article_titles_returns st' x Hwf'),
    (Magazine_article_titles_returns st x Hwf), Hall. simpl. f_equal.
  rewrite (list_filter_iff _ (λ r, magazine_of st r = Some x))
    by (intros r; by rewrite Hm).
  destruct (filter _ _) as [|r0 arts]; [done|]. f_equal.
  apply (list_fmap_ext (λ r, default "" (title_of st' r))
           (λ r, default "" (title_of st r)) (r0 :: arts)).
  intros i r _. by rewrite Ht.
Qed.

Lemma Magazine_top_publisher_ext :
  (∀ r, magazine_of st' r = magazine_of st r) →
  (Magazine.top_publisher st').1 = (Magazine.top_publisher st).1.
Proof.
  intros Hm. rewrite (Magazine_top_publisher_returns st' Hwf'),
    (Magazine_top_publisher_returns st Hwf), Hall. simpl. f_equal.
  destruct (Article_all st) as [|r0 all]; [done|].
  rewrite (list_fmap_ext _ (λ r, default 0 (magazine_of st r)) (r0 :: all));
    [done|]. intros i r _. by rewrite Hm.
Qed.

Lemma Author_magazines_ext x :
  (∀ r, author_of st' r = author_of st r) →
  (∀ r, magazine_of st' r = magazine_of st r) →
  (Author.magazines x st').1 = (Author.magazines x st).1.
Proof.
  intros Ha Hm. rewrite (Author_magazines_returns st' x Hwf'),
    (Author_magazines_returns st x Hwf), Hall. simpl. do 3 f_equal.
  rewrite (list_filter_iff _ (λ r, author_of st r = Some x))
    by (intros r; by rewrite Ha).
  apply list_fmap_ext. intros i r _. by rewrite Hm.
Qed.

Lemma Magazine_contributors_ext x :
  (∀ r, author_of st' r = author_of st r) →
  (∀ r, magazine_of st' r = magazine_of st r) →
  (Magazine.contributors x st').1 = (Magazine.contributors x st).1.
Proof.
  intros Ha Hm. rewrite (Magazine_contributors_returns st' x Hwf'),
    (Magazine_contributors_returns st x Hwf), Hall. simpl. do 3 f_equal.
  rewrite (list_filter_iff _ (λ r, magazine_of st r = Some x))
    by (intros r; by rewrite Hm).
  apply list_fmap_ext. intros i r _. by rewrite Ha.
Qed.

Lemma Magazine_contributing_authors_ext x :
  (∀ r, author_of st' r = author_of st r) →
  (∀ r, magazine_of st' r = magazine_of st r) →
  (Magazine.contributing_authors x st').1 = (Magazine.contributing_authors x st).1.
Proof.
  intros Ha Hm. rewrite (Magazine_contributing_authors_returns st' x Hwf'),
    (Magazine_contributing_authors_returns st x Hwf), Hall. simpl. f_equal.
  rewrite (list_filter_iff (λ r, magazine_of st' r = Some x)
             (λ r, magazine_of st r = Some x)) by (intros r; by rewrite Hm).
  rewrite (list_fmap_ext (λ r, default 0 (author_of st' r))
             (λ r, default 0 (author_of st r))); [done|].
  intros i r _. by rewrite Ha.
Qed.

Lemma Author_topic_areas_ext x :
  (∀ r, author_of st' r = author_of st r) →
  (∀ r, topic_of st' r = topic_of st r) →
  (Author.topic_areas x st').1 = (Author.topic_areas x st).1.
Proof.
  intros Ha Ht. rewrite (Author_topic_areas_returns st' x Hwf'),
    (Author_topic_areas_returns st x Hwf), Hall.
  cbv beta iota delta [fst]. f_equal.
  rewrite (list_filter_iff _ (λ r, author_of st r = Some x))
    by (intros r; by rewrite Ha).
  destruct (filter _ _) as [|r0 arts]; [done|].
  rewrite (list_fmap_ext (λ r, default "" (topic_of st' r))
             (λ r, default "" (topic_of st r)) (r0 :: arts)); [done|].
  intros i r _. by rewrite Ht.
Qed.

End links.

(** ** Reassigning an article *)

Lemma store_lookup st a o o' x :
  heap st !! a = Some o →
  heap (store a o' st).2 !! x = if decide (x = a) then Some o' else heap st !! x.
Proof.
  intros Ha. simpl. case_decide as Hx.
  - subst. rewrite list_lookup_insert_eq; [done|]. by eapply lookup_lt_Some.
  - by rewrite list_lookup_insert_ne.
Qed.

Lemma store_author_readers st r t a m b :
  heap st !! r = Some (OArticle t a m) →
  let st' := (store r (OArticle t b m) st).2 in
  (∀ x, magazine_of st' x = magazine_of st x) ∧
  (∀ x, title_of st' x = title_of st x) ∧
  (∀ x, x ≠ r → heap st' !! x = heap st !! x).
Proof.
  intros Hr st'. split_and!; intros x.
  - unfold magazine_of, st'. rewrite (store_lookup _ _ _ _ _ Hr).
    case_decide; [subst; by rewrite Hr|done].
  - unfold title_of, st'. rewrite (store_lookup _ _ _ _ _ Hr).
    case_decide; [subst; by rewrite Hr|done].
  - intros Hx. unfold st'. rewrite (store_lookup _ _ _ _ _ Hr).
    by rewrite decide_False.
Qed.

Lemma store_magazine_readers st r t a m m' :
  heap st !! r = Some (OArticle t a m) →
  let st' := (store r (OArticle t a m') st).2 in
  (∀ x, author_of st' x = author_of st x) ∧
  (∀ x, title_of st' x = title_of st x) ∧
  (∀ x, magazine_of st' x = if decide (x = r) then Some m' else magazine_of st x) ∧
  (∀ x, x ≠ r → heap st' !! x = heap st !! x).
Proof.
  intros Hr st'. split_and!; intros x.
  - unfold author_of, st'. rewrite (store_lookup _ _ _ _ _ Hr).
    case_decide; [subst; by rewrite Hr|done].
  - unfold title_of, st'. rewrite (store_lookup _ _ _ _ _ Hr).
    case_decide; [subst; by rewrite Hr|done].
  - unfold magazine_of, st'. rewrite (store_lookup _ _ _ _ _ Hr).
    by case_decide.
  - intros Hx. unfold st'. rewrite (store_lookup _ _ _ _ _ Hr).
    by rewrite decide_False.
Qed.

(** X11. For an article [r] of a reachable state, assigning to [r.author]
    succeeds exactly when the value is a registered Author; otherwise
    [Exception] is raised with the author message and nothing changes.
    After a successful assignment of [b], [r.author] is [b]; the magazine
    and title of [r], every other article, the three lists, the
    [articles()] and [article_titles()] of every magazine and
    [top_publisher()] are as before. *)
Theorem Article_set_author_effect st r :
  reachable st → r ∈ Article_all st →
  (∀ v, (∃ st', Article.set_author r v st = (Ret tt, st')) ↔ registered CAuthor st v) ∧
  (∀ v e st', Article.set_author r v st = (Raise e, st') →
     st' = st ∧ e = Exception "Author must be an instance of Author class") ∧
  (∀ b st', Article.set_author r (VRef b) st = (Ret tt, st') →
     Article.author r st' = (Ret b, st') ∧
     (Article.magazine r st').1 = (Article.magazine r st).1 ∧
     (Article.title r st').1 = (Article.title r st).1 ∧
     (∀ r', r' ≠ r → (Article.author r' st').1 = (Article.author r' st).1 ∧
                     (Article.magazine r' st').1 = (Article.magazine r' st).1) ∧
     Article_all st' = Article_all st ∧ Author_all st' = Author_all st ∧
     Magazine_all st' = Magazine_all st ∧
     (∀ x, (Magazine.articles x st').1 = (Magazine.articles x st).1) ∧
     (∀ x, (Magazine.article_titles x st').1 = (Magazine.article_titles x st).1) ∧
     (Magazine.top_publisher st').1 = (Magazine.top_publisher st).1).
Proof.
  intros Hwf%reachable_wf Hr.
  assert (is_a CArticle (heap st) r) as Hart by by apply (wf_reg _ Hwf CArticle).
  assert (∀ v, match Article.set_author r v st with
               | (Ret _, _) => registered CAuthor st v
               | (Raise e, st') =>
                   st' = st ∧ ¬ registered CAuthor st v ∧
                   e = Exception "Author must be an instance of Author class"
               end) as Hcases.
  { intros v. unfold Article.set_author. unfold_m.
    destruct (instance_of CAuthor v (heap st)) as [a|] eqn:Ea.
    - apply instance_of_Some in Ea as [-> Ha].
      destruct Hart as (o & Ho & Hc). rewrite Ho.
      destruct o as [| |t a0 m]; try done. simpl.
      exists a. split; [done|]. by apply (wf_reg _ Hwf CAuthor).
    - split; [done|]. split; [|done]. intros (a & -> & Ha).
      eapply instance_of_None in Ea; [|done]. by apply Ea, (wf_reg _ Hwf CAuthor). }
  split; [|split].
  - intros v. specialize (Hcases v).
    destruct (Article.set_author r v st) as [[[]|e] st1].
    + split; [done|eauto].
    + destruct Hcases as (_ & Hn & _). split; [by intros [? ?]|done].
  - intros v e st' E. specialize (Hcases v). rewrite E in Hcases. tauto.
  - intros b st' E.
    pose proof (effect_Article_set_author st r (VRef b) Hwf) as Heff.
    pose proof (Article_set_author_spec st r (VRef b)) as Hs.
    rewrite E in Heff, Hs. simpl in Heff.
    destruct Hs as (a & t & a0 & m & [= <-] & Ha & Ho & ->).
    pose proof (effect_wf _ _ Hwf Heff) as Hwf'.
    destruct (store_author_readers st r t a0 m b Ho) as (Hmag & Htit & Hother).
    split.
    { apply Article_author_returns. rewrite author_of_store; [|by eapply lookup_lt_Some].
      by rewrite decide_True. }
    split.
    { rewrite (Article_magazine_returns _ r m), (Article_magazine_returns st r m);
        [done|unfold magazine_of; by rewrite Ho|].
      rewrite Hmag. unfold magazine_of. by rewrite Ho. }
    split.
    { rewrite (Article_title_returns _ r t), (Article_title_returns st r t);
        [done|unfold title_of; by rewrite Ho|].
      rewrite Htit. unfold title_of. by rewrite Ho. }
    split.
    { intros r' Hne. destruct (Article_reads_ext st _ r' (Hother r' Hne)) as (? & ? & ?).
      done. }
    split; [done|]. split; [done|]. split; [done|]. split; [|split].
    + intros x. by apply Magazine_articles_ext.
    + intros x. by apply Magazine_article_titles_ext.
    + by apply Magazine_top_publisher_ext.
Qed.

Lemma Article_set_author_effect_witness :
  reachable sample ∧ 3 ∈ Article_all sample ∧
  (∀ v, (∃ st', Article.set_author 3 v sample = (Ret tt, st')) ↔
        registered CAuthor sample v) ∧
  (∀ v e st', Article.set_author 3 v sample = (Raise e, st') →
     st' = sample ∧ e = Exception "Author must be an instance of Author class") ∧
  (∀ b st', Article.set_author 3 (VRef b) sample = (Ret tt, st') →
     Article.author 3 st' = (Ret b, st') ∧
     (Article.magazine 3 st').1 = (Article.magazine 3 sample).1 ∧
     (Article.title 3 st').1 = (Article.title 3 sample).1 ∧
     (∀ r', r' ≠ 3 → (Article.author r' st').1 = (Article.author r' sample).1 ∧
                     (Article.magazine r' st').1 = (Article.magazine r' sample).1) ∧
     Article_all st' = Article_all sample ∧ Author_all st' = Author_all sample ∧
     Magazine_all st' = Magazine_all sample ∧
     (∀ x, (Magazine.articles x st').1 = (Magazine.articles x sample).1) ∧
     (∀ x, (Magazine.article_titles x st').1 = (Magazine.article_titles x sample).1) ∧
     (Magazine.top_publisher st').1 = (Magazine.top_publisher sample).1).
Proof.
  assert (3 ∈ Article_all sample) as Hr by (vm_compute; left).
  split; [exact sample_reachable|]. split; [exact Hr|].
  exact (Article_set_author_effect sample 3 sample_reachable Hr).
Defined.

(** X12. For an article [r] of a reachable state, assigning to
    [r.magazine] succeeds exactly when the value is a registered Magazine;
    otherwise [Exception] is raised with the magazine message and nothing
    changes.  After a successful assignment of [m], [r.magazine] is [m]; the
    author and title of [r], every other article, the three lists and the
    [articles()] of every author are as before; the [articles()] of a
    magazine [x] are as before for every article but [r], which is in them
    exactly when [x] is [m]. *)
Theorem Article_set_magazine_effect st r :
  reachable st → r ∈ Article_all st →
  (∀ v, (∃ st', Article.set_magazine r v st = (Ret tt, st')) ↔
        registered CMagazine st v) ∧
  (∀ v e st', Article.set_magazine r v st = (Raise e, st') →
     st' = st ∧ e = Exception "Magazine must be an instance of Magazine class") ∧
  (∀ m st', Article.set_magazine r (VRef m) st = (Ret tt, st') →
     Article.magazine r st' = (Ret m, st') ∧
     (Article.author r st').1 = (Article.author r st).1 ∧
     (Article.title r st').1 = (Article.title r st).1 ∧
     (∀ r', r' ≠ r → (Article.author r' st').1 = (Article.author r' st).1 ∧
                     (Article.magazine r' st').1 = (Article.magazine r' st).1) ∧
     Article_all st' = Article_all st ∧ Author_all st' = Author_all st ∧
     Magazine_all st' = Magazine_all st ∧
     (∀ x, (Author.articles x st').1 = (Author.articles x st).1) ∧
     (∀ x, ∃ l l', Magazine.articles x st = (Ret l, st) ∧
                   Magazine.articles x st' = (Ret l', st') ∧
                   l' `sublist_of` Article_all st ∧
                   ∀ r', r' ∈ l' ↔ if decide (r' = r) then x = m else r' ∈ l)).
Proof.
  intros Hwf%reachable_wf Hr.
  assert (is_a CArticle (heap st) r) as Hart by by apply (wf_reg _ Hwf CArticle).
  assert (∀ v, match Article.set_magazine r v st with
               | (Ret _, _) => registered CMagazine st v
               | (Raise e, st') =>
                   st' = st ∧ ¬ registered CMagazine st v ∧
                   e = Exception "Magazine must be an instance of Magazine class"
               end) as Hcases.
  { intros v. unfold Article.set_magazine. unfold_m.
    destruct (instance_of CMagazine v (heap st)) as [m|] eqn:Em.
    - apply instance_of_Some in Em as [-> Hm].
      destruct Hart as (o & Ho & Hc). rewrite Ho.
      destruct o as [| |t a m0]; try done. simpl.
      exists m. split; [done|]. by apply (wf_reg _ Hwf CMagazine).
    - split; [done|]. split; [|done]. intros (m & -> & Hm).
      eapply instance_of_None in Em; [|done]. by apply Em, (wf_reg _ Hwf CMagazine). }
  split; [|split].
  - intros v. specialize (Hcases v).
    destruct (Article.set_magazine r v st) as [[[]|e] st1].
    + split; [done|eauto].
    + destruct Hcases as (_ & Hn & _). split; [by intros [? ?]|done].
  - intros v e st' E. specialize (Hcases v). rewrite E in Hcases. tauto.
  - intros m st' E.
    pose proof (effect_Article_set_magazine st r (VRef m) Hwf) as Heff.
    pose proof (Article_set_magazine_spec st r (VRef m)) as Hs.
    rewrite E in Heff, Hs. simpl in Heff.
    destruct Hs as (m1 & t & a & m0 & [= <-] & Hm & Ho & ->).
    pose proof (effect_wf _ _ Hwf Heff) as Hwf'.
    destruct (store_magazine_readers st r t a m0 m Ho) as (Hau & Htit & Hmag & Hother).
    split.
    { apply Article_magazine_returns. by rewrite Hmag, decide_True. }
    split.
    { rewrite (Article_author_returns _ r a), (Article_author_returns st r a);
        [done|unfold author_of; by rewrite Ho|].
      rewrite Hau. unfold author_of. by rewrite Ho. }
    split.
    { rewrite (Article_title_returns _ r t), (Article_title_returns st r t);
        [done|unfold title_of; by rewrite Ho|].
      rewrite Htit. unfold title_of. by rewrite Ho. }
    split.
    { intros r' Hne. destruct (Article_reads_ext st _ r' (Hother r' Hne)) as (? & ? & ?).
      done. }
    split; [done|]. split; [done|]. split; [done|]. split.
    + intros x. by apply Author_articles_ext.
    + intros x. eexists _, _.
      split; [by apply Magazine_articles_returns|].
      split; [by apply Magazine_articles_returns|].
      split; [apply sublist_filter|].
      intros r'. rewrite !list_elem_of_filter, Hmag.
      change (Article_all (store r (OArticle t a m) st).2) with (Article_all st).
      case_decide as Hd; [|by rewrite list_elem_of_filter]. subst r'.
      split; [by intros [[= ->] _]|by intros ->].
Qed.

Lemma Article_set_magazine_effect_witness :
  reachable sample ∧ 3 ∈ Article_all sample ∧
  (∀ v, (∃ st', Article.set_magazine 3 v sample = (Ret tt, st')) ↔
        registered CMagazine sample v) ∧
  (∀ v e st', Article.set_magazine 3 v sample = (Raise e, st') →
     st' = sample ∧ e = Exception "Magazine must be an instance of Magazine class") ∧
  (∀ m st', Article.set_magazine 3 (VRef m) sample = (Ret tt, st') →
     Article.magazine 3 st' = (Ret m, st') ∧
     (Article.author 3 st').1 = (Article.author 3 sample).1 ∧
     (Article.title 3 st').1 = (Article.title 3 sample).1 ∧
     (∀ r', r' ≠ 3 → (Article.author r' st').1 = (Article.author r' sample).1 ∧
                     (Article.magazine r' st').1 = (Article.magazine r' sample).1) ∧
     Article_all st' = Article_all sample ∧ Author_all st' = Author_all sample ∧
     Magazine_all st' = Magazine_all sample ∧
     (∀ x, (Author.articles x st').1 = (Author.articles x sample).1) ∧
     (∀ x, ∃ l l', Magazine.articles x sample = (Ret l, sample) ∧
                   Magazine.articles x st' = (Ret l', st') ∧
                   l' `sublist_of` Article_all sample ∧
                   ∀ r', r' ∈ l' ↔ if decide (r' = 3) then x = m else r' ∈ l)).
Proof.
  assert (3 ∈ Article_all sample) as Hr by (vm_compute; left).
  split; [exact sample_reachable|]. split; [exact Hr|].
  exact (Article_set_magazine_effect sample 3 sample_reachable Hr).
Defined.

(** ** Renaming a magazine, changing its category *)

Lemma store_magazine_obj_readers st m n c n' c' :
  heap st !! m = Some (OMagazine n c) →
  let st' := (store m (OMagazine n' c') st).2 in
  (∀ x, author_of st' x = author_of st x) ∧
  (∀ x, magazine_of st' x = magazine_of st x) ∧
  (∀ x, title_of st' x = title_of st x) ∧
  (∀ x, x ≠ m → heap st' !! x = heap st !! x) ∧
  heap st' !! m = Some (OMagazine n' c').
Proof.
  intros Hm st'. split_and!; try intros x.
  - unfold author_of, st'. rewrite (store_lookup _ _ _ _ _ Hm).
    case_decide; [subst; by rewrite Hm|done].
  - unfold magazine_of, st'. rewrite (store_lookup _ _ _ _ _ Hm).
    case_decide; [subst; by rewrite Hm|done].
  - unfold title_of, st'. rewrite (store_lookup _ _ _ _ _ Hm).
    case_decide; [subst; by rewrite Hm|done].
  - intros Hx. unfold st'. rewrite (store_lookup _ _ _ _ _ Hm).
    by rewrite decide_False.
  - unfold st'. rewrite (store_lookup _ _ _ _ _ Hm). by rewrite decide_True.
Qed.

Lemma Magazine_setter_store st m v st' :
  Magazine.set_name m v st = (Ret tt, st') ∨
  Magazine.set_category m v st = (Ret tt, st') →
  ∃ n c n' c', heap st !! m = Some (OMagazine n c) ∧
               st' = (store m (OMagazine n' c') st).2.
Proof.
  intros [E|E].
  - pose proof (Magazine_set_name_spec st m v) as Hs. rewrite E in Hs.
    destruct Hs as (n' & n & c & _ & _ & Ho & ->). by exists n, c, n', c.
  - pose proof (Magazine_set_category_spec st m v) as Hs. rewrite E in Hs.
    destruct Hs as (c' & n & c & _ & _ & Ho & ->). by exists n, c, n, c'.
Qed.

Lemma Article_reads_view st st' r :
  author_of st' r = author_of st r → magazine_of st' r = magazine_of st r →
  title_of st' r = title_of st r →
  (Article.author r st').1 = (Article.author r st).1 ∧
  (Article.magazine r st').1 = (Article.magazine r st).1 ∧
  (Article.title r st').1 = (Article.title r st).1.
Proof.
  unfold author_of, magazine_of, title_of, Article.author, Article.magazine,
    Article.title. unfold_m.
  destruct (heap st' !! r) as [[| |t' a' m']|], (heap st !! r) as [[| |t a m]|];
    simpl; try done; by intros [= ->] [= ->] [= ->].
Qed.

(** X13. A successful assignment to the name or to the category of a
    magazine of a reachable state changes no relationship: the three lists,
    the author, magazine and title every article reads, the [articles()] and
    [magazines()] of every author, the [articles()], [contributors()],
    [article_titles()] and [contributing_authors()] of every magazine and
    [top_publisher()] are as before. *)
Theorem Magazine_setters_keep_links st m v st' :
  reachable st →
  Magazine.set_name m v st = (Ret tt, st') ∨
  Magazine.set_category m v st = (Ret tt, st') →
  Article_all st' = Article_all st ∧ Author_all st' = Author_all st ∧
  Magazine_all st' = Magazine_all st ∧
  (∀ r, (Article.author r st').1 = (Article.author r st).1 ∧
        (Article.magazine r st').1 = (Article.magazine r st).1 ∧
        (Article.title r st').1 = (Article.title r st).1) ∧
  (∀ x, (Author.articles x st').1 = (Author.articles x st).1 ∧
        (Author.magazines x st').1 = (Author.magazines x st).1 ∧
        (Magazine.articles x st').1 = (Magazine.articles x st).1 ∧
        (Magazine.contributors x st').1 = (Magazine.contributors x st).1 ∧
        (Magazine.article_titles x st').1 = (Magazine.article_titles x st).1 ∧
        (Magazine.contributing_authors x st').1
        = (Magazine.contributing_authors x st).1) ∧
  (Magazine.top_publisher st').1 = (Magazine.top_publisher st).1.
Proof.
  intros Hwf%reachable_wf E.
  assert (wf st') as Hwf'.
  { destruct E as [E|E].
    - pose proof (effect_Magazine_set_name st m v Hwf) as Heff.
      rewrite E in Heff. by eapply effect_wf.
    - pose proof (effect_Magazine_set_category st m v Hwf) as Heff.
      rewrite E in Heff. by eapply effect_wf. }
  destruct (Magazine_setter_store st m v st' E) as (n & c & n' & c' & Ho & ->).
  destruct (store_magazine_obj_readers st m n c n' c' Ho)
    as (Hau & Hmag & Htit & _ & _).
  split; [done|]. split; [done|]. split; [done|]. split; [|split].
  - intros r. by apply Article_reads_view.
  - intros x. split_and!.
    + by apply Author_articles_ext.
    + by apply Author_magazines_ext.
    + by apply Magazine_articles_ext.
    + by apply Magazine_contributors_ext.
    + by apply Magazine_article_titles_ext.
    + by apply Magazine_contributing_authors_ext.
  - by apply Magazine_top_publisher_ext.
Qed.

Lemma Magazine_setters_keep_links_witness :
  reachable sample ∧
  (Magazine.set_name 1 (VStr "Elle") sample = (Ret tt, sample_renamed) ∨
   Magazine.set_category 1 (VStr "Elle") sample = (Ret tt, sample_renamed)) ∧
  Article_all sample_renamed = Article_all sample ∧ Author_all sample_renamed = Author_all sample ∧
  Magazine_all sample_renamed = Magazine_all sample ∧
  (∀ r, (Article.author r sample_renamed).1 = (Article.author r sample).1 ∧
        (Article.magazine r sample_renamed).1 = (Article.magazine r sample).1 ∧
        (Article.title r sample_renamed).1 = (Article.title r sample).1) ∧
  (∀ x, (Author.articles x sample_renamed).1 = (Author.articles x sample).1 ∧
        (Author.magazines x sample_renamed).1 = (Author.magazines x sample).1 ∧
        (Magazine.articles x sample_renamed).1 = (Magazine.articles x sample).1 ∧
        (Magazine.contributors x sample_renamed).1 = (Magazine.contributors x sample).1 ∧
        (Magazine.article_titles x sample_renamed).1 = (Magazine.article_titles x sample).1 ∧
        (Magazine.contributing_authors x sample_renamed).1
        = (Magazine.contributing_authors x sample).1) ∧
  (Magazine.top_publisher sample_renamed).1 = (Magazine.top_publisher sample).1.
Proof.
  assert (Magazine.set_name 1 (VStr "Elle") sample = (Ret tt, sample_renamed) ∨
          Magazine.set_category 1 (VStr "Elle") sample = (Ret tt, sample_renamed)) as E
    by (left; reflexivity).
  split; [exact sample_reachable|]. split; [exact E|].
  exact (Magazine_setters_keep_links sample 1 (VStr "Elle") sample_renamed sample_reachable E).
Defined.

(** X14. For a Magazine [m] of a reachable state, [m.category] has at least
    one character and keeps one after any further sequence of operations; an
    assignment of a string of at least one character succeeds, makes it the
    category and leaves [m.name] as it was; an assignment to [m.name] leaves
    [m.category] as it was; an assignment of any other value to the category
    raises [Exception], with the message for a non-string or for an empty
    string, and changes nothing. *)
Theorem Magazine_category_invariant st m :
  reachable st → m ∈ Magazine_all st →
  (∀ ops, ∃ c, Magazine.category m (run ops st) = (Ret c, run ops st) ∧
               (1 ≤ len c)%Z) ∧
  (∀ s, (1 ≤ len s)%Z →
     ∃ st', Magazine.set_category m (VStr s) st = (Ret tt, st') ∧
            Magazine.category m st' = (Ret s, st') ∧
            (Magazine.name m st').1 = (Magazine.name m st).1) ∧
  (∀ s st', Magazine.set_name m (VStr s) st = (Ret tt, st') →
     (Magazine.category m st').1 = (Magazine.category m st).1) ∧
  (∀ v e st', Magazine.set_category m v st = (Raise e, st') →
     st' = st ∧ ¬ str_at_least 1 v ∧
     e = Exception match v with
                   | VStr _ => "Category must be longer than 0 characters"
                   | _ => "Category must be a string"
                   end).
Proof.
  intros Hr Hm. pose proof (reachable_wf _ Hr) as Hwf.
  destruct (wf_magazine st m Hwf Hm) as (n & c & Ho & _ & _).
  split; [|split; [|split]].
  - intros ops.
    assert (m ∈ Magazine_all (run ops st)) as Hm'
      by by apply (run_registry ops st CMagazine).
    destruct (wf_magazine _ m (run_wf ops st Hwf) Hm') as (n' & c' & Ho' & _ & Hc').
    exists c'. split; [|done]. apply Magazine_category_returns.
    unfold category_of. by rewrite Ho'.
  - intros s Hs. unfold Magazine.set_category.
    apply len_positive_true in Hs. rewrite Hs. unfold_m. rewrite Ho.
    eexists. split; [reflexivity|]. split.
    + apply Magazine_category_returns, category_of_store. by eapply lookup_lt_Some.
    + unfold Magazine.name. unfold_m.
      rewrite list_lookup_insert_eq by by eapply lookup_lt_Some. by rewrite Ho.
  - intros s st' E. pose proof (Magazine_set_name_spec st m (VStr s)) as Hs.
    rewrite E in Hs. destruct Hs as (n' & n0 & c0 & _ & _ & Ho' & ->).
    unfold Magazine.category. unfold_m.
    rewrite list_lookup_insert_eq by by eapply lookup_lt_Some. by rewrite Ho'.
  - intros v e st'. unfold Magazine.set_category, str_at_least. unfold_m.
    destruct v as [| | |s|];
      try (intros [= <- <-]; split_and!; [done|by intros (? & [=] & _)|done]).
    destruct (len s <=? 0)%Z eqn:Es; [|by rewrite Ho].
    intros [= <- <-]. split_and!; [done| |done].
    intros (? & [= <-] & Hl). apply len_positive_true in Hl. congruence.
Qed.

Lemma Magazine_category_invariant_witness :
  reachable sample ∧ 1 ∈ Magazine_all sample ∧
  (∀ ops, ∃ c, Magazine.category 1 (run ops sample) = (Ret c, run ops sample) ∧
               (1 ≤ len c)%Z) ∧
  (∀ s, (1 ≤ len s)%Z →
     ∃ st', Magazine.set_category 1 (VStr s) sample = (Ret tt, st') ∧
            Magazine.category 1 st' = (Ret s, st') ∧
            (Magazine.name 1 st').1 = (Magazine.name 1 sample).1) ∧
  (∀ s st', Magazine.set_name 1 (VStr s) sample = (Ret tt, st') →
     (Magazine.category 1 st').1 = (Magazine.category 1 sample).1) ∧
  (∀ v e st', Magazine.set_category 1 v sample = (Raise e, st') →
     st' = sample ∧ ¬ str_at_least 1 v ∧
     e = Exception match v with
                   | VStr _ => "Category must be longer than 0 characters"
                   | _ => "Category must be a string"
                   end).
Proof.
  assert (1 ∈ Magazine_all sample) as Hm by (vm_compute; left).
  split; [exact sample_reachable|]. split; [exact Hm|].
  exact (Magazine_category_invariant sample 1 sample_reachable Hm).
Defined.

(** ** How the queries fit together *)

(** X15. Every article of a reachable state has a registered author and a
    registered magazine, and the queries agree on it: the article is in the
    [articles()] of its author and of its magazine, its magazine is in the
    [magazines()] of its author and its author is in the [contributors()] of
    its magazine. *)
Theorem Article_links_registered st r :
  reachable st → r ∈ Article_all st →
  ∃ a m la lm ms cs,
    Article.author r st = (Ret a, st) ∧ a ∈ Author_all st ∧
    Article.magazine r st = (Ret m, st) ∧ m ∈ Magazine_all st ∧
    Author.articles a st = (Ret la, st) ∧ r ∈ la ∧
    Magazine.articles m st = (Ret lm, st) ∧ r ∈ lm ∧
    Author.magazines a st = (Ret ms, st) ∧ m ∈ ms ∧
    Magazine.contributors m st = (Ret cs, st) ∧ a ∈ cs.
Proof.
  intros Hwf%reachable_wf Hr.
  destruct (wf_author_of st r Hwf Hr) as (a & Ha & Hareg).
  destruct (wf_magazine_of st r Hwf Hr) as (m & Hm & Hmreg).
  exists a, m. eexists _, _, _, _.
  split; [by apply Article_author_returns|]. split; [done|].
  split; [by apply Article_magazine_returns|]. split; [done|].
  split; [by apply Author_articles_returns|].
  split; [by apply list_elem_of_filter|].
  split; [by apply Magazine_articles_returns|].
  split; [by apply list_elem_of_filter|].
  split; [by apply Author_magazines_returns|]. split.
  { rewrite elem_of_elements, elem_of_list_to_set, list_elem_of_fmap.
    exists r. rewrite Hm. split; [done|]. by apply list_elem_of_filter. }
  split; [by apply Magazine_contributors_returns|].
  rewrite elem_of_elements, elem_of_list_to_set, list_elem_of_fmap.
  exists r. rewrite Ha. split; [done|]. by apply list_elem_of_filter.
Qed.

Lemma Article_links_registered_witness :
  reachable sample ∧ 4 ∈ Article_all sample ∧
  ∃ a m la lm ms cs,
    Article.author 4 sample = (Ret a, sample) ∧ a ∈ Author_all sample ∧
    Article.magazine 4 sample = (Ret m, sample) ∧ m ∈ Magazine_all sample ∧
    Author.articles a sample = (Ret la, sample) ∧ 4 ∈ la ∧
    Magazine.articles m sample = (Ret lm, sample) ∧ 4 ∈ lm ∧
    Author.magazines a sample = (Ret ms, sample) ∧ m ∈ ms ∧
    Magazine.contributors m sample = (Ret cs, sample) ∧ a ∈ cs.
Proof.
  assert (4 ∈ Article_all sample) as Hr by (vm_compute; right; left).
  split; [exact sample_reachable|]. split; [exact Hr|].
  exact (Article_links_registered sample 4 sample_reachable Hr).
Defined.

Lemma prolific_elem `{EqDecision K} (ks : list K) (k : K) :
  k ∈ (filter (λ item : K * Z, (2 < item.2)%Z) (fold_left bump ks [])).*1
  ↔ (2 < occurrences k ks)%Z.
Proof.
  rewrite list_elem_of_fmap. split.
  - intros ([k' v] & -> & [Hv Hitem]%list_elem_of_filter).
    simpl in *. by destruct (counts_elem ks k' v Hitem) as [<- _].
  - intros Hk. exists (k, occurrences k ks). split; [done|].
    apply list_elem_of_filter. split; [done|].
    apply counts_elem_of, occurrences_pos. lia.
Qed.

(** X16. In a reachable state every author that
    [magazine.contributing_authors()] returns is a registered author that
    [magazine.contributors()] returns too, so the first list is never longer
    than the second. *)
Theorem contributing_authors_are_contributors st self l :
  reachable st →
  Magazine.contributing_authors self st = (Ret (Some l), st) →
  ∃ cs, Magazine.contributors self st = (Ret cs, st) ∧
        (∀ a, a ∈ l → a ∈ cs ∧ a ∈ Author_all st) ∧
        length l ≤ length cs.
Proof.
  intros Hwf%reachable_wf E.
  pose proof (Magazine_contributing_authors_returns st self Hwf) as Hret.
  unfold returns in Hret. rewrite E in Hret.
  set (arts := filter (λ r, magazine_of st r = Some self) (Article_all st)) in *.
  set (ks := (λ r, default 0 (author_of st r)) <$> arts) in *.
  assert (l = (filter (λ item : addr * Z, (2 < item.2)%Z) (fold_left bump ks [])).*1)
    as Hl.
  { destruct (_.*1) as [|a0 l0]; [done|]. by injection Hret as ->. }
  eexists. split; [by apply Magazine_contributors_returns|]. fold arts ks.
  assert (∀ a, a ∈ l → a ∈ elements (list_to_set ks : gset addr)) as Hsub.
  { intros a Ha. rewrite Hl in Ha. apply prolific_elem in Ha.
    rewrite elem_of_elements, elem_of_list_to_set. apply occurrences_pos. lia. }
  split.
  - intros a Ha. split; [by apply Hsub|].
    apply Hsub in Ha. rewrite elem_of_elements, elem_of_list_to_set in Ha.
    apply list_elem_of_fmap in Ha as (r & -> & [_ Hr]%list_elem_of_filter).
    destruct (wf_author_of st r Hwf Hr) as (a & -> & Hreg). done.
  - apply submseteq_length, NoDup_submseteq; [|done].
    rewrite Hl. eapply sublist_NoDup.
    + apply (bump_all_keys_nodup ks []). constructor.
    + apply fmap_sublist, sublist_filter.
Qed.

Lemma contributing_authors_are_contributors_witness :
  reachable sample ∧
  Magazine.contributing_authors 1 sample = (Ret (Some [0]), sample) ∧
  ∃ cs, Magazine.contributors 1 sample = (Ret cs, sample) ∧
        (∀ a, a ∈ [0] → a ∈ cs ∧ a ∈ Author_all sample) ∧
        length [0] ≤ length cs.
Proof.
  split; [exact sample_reachable|]. split; [reflexivity|].
  exact (contributing_authors_are_contributors sample 1 [0] sample_reachable eq_refl).
Defined.

(** X17. In a reachable state [author.topic_areas()] is [None] exactly when
    [author.magazines()] is empty; otherwise its elements are exactly the
    categories that the magazines of [author.magazines()] read, and there
    are no more categories than magazines. *)
Theorem topic_areas_of_magazines st self :
  reachable st →
  ∃ ms res,
    Author.magazines self st = (Ret ms, st) ∧
    Author.topic_areas self st = (Ret res, st) ∧
    (res = None ↔ ms = []) ∧
    (∀ cs, res = Some cs →
       (∀ c, c ∈ cs ↔ ∃ m, m ∈ ms ∧ Magazine.category m st = (Ret c, st)) ∧
       length cs ≤ length ms).
Proof.
  intros Hwf%reachable_wf. eexists _, _.
  split; [by apply Author_magazines_returns|].
  split; [by apply Author_topic_areas_returns|].
  set (arts := filter (λ r, author_of st r = Some self) (Article_all st)).
  assert (∀ r, r ∈ arts → ∃ m n c, magazine_of st r = Some m ∧
            heap st !! m = Some (OMagazine n c) ∧ topic_of st r = Some c) as Hart.
  { intros r [_ Hr]%list_elem_of_filter. by apply wf_topic_of. }
  set (ms := elements (list_to_set ((λ r, default 0 (magazine_of st r)) <$> arts)
                       : gset addr)).
  assert (∀ m, m ∈ ms ↔ ∃ r, r ∈ arts ∧ magazine_of st r = Some m) as Hms.
  { intros m. unfold ms.
    rewrite elem_of_elements, elem_of_list_to_set, list_elem_of_fmap. split.
    - intros (r & -> & Hr). exists r. split; [done|].
      destruct (Hart r Hr) as (m & _ & _ & -> & _). done.
    - intros (r & Hr & Hm). exists r. by rewrite Hm. }
  destruct arts as [|r0 arts'] eqn:E.
  { split; [|done]. split; [intros _|done]. apply elements_empty. }
  split.
  { split; [done|]. intros Hnil.
    destruct (Hart r0) as (m & _ & _ & Hm & _); [left|].
    assert (m ∈ ms) as Hin by (apply Hms; exists r0; split; [left|done]).
    rewrite Hnil in Hin. by apply elem_of_nil in Hin. }
  intros cs [= <-].
  assert (∀ c, c ∈ elements (list_to_set
              ((λ r, default "" (topic_of st r)) <$> r0 :: arts') : gset string)
          ↔ ∃ m, m ∈ ms ∧ Magazine.category m st = (Ret c, st)) as Hcs.
  { intros c. rewrite elem_of_elements, elem_of_list_to_set, list_elem_of_fmap.
    split.
    - intros (r & -> & Hr). destruct (Hart r Hr) as (m & n & c & Hm & Ho & Ht).
      exists m. split; [apply Hms; by exists r|]. rewrite Ht.
      apply Magazine_category_returns. unfold category_of. by rewrite Ho.
    - intros (m & (r & Hr & Hm)%Hms & Hc). exists r. split; [|done].
      destruct (Hart r Hr) as (m' & n & c' & Hm' & Ho & Ht).
      assert (m' = m) as -> by congruence.
      rewrite Ht. simpl.
      rewrite (Magazine_category_returns st m c') in Hc;
        [congruence|unfold category_of; by rewrite Ho]. }
  split; [exact Hcs|].
  match goal with |- length ?cs ≤ _ =>
    assert (length cs ≤ length ((λ m, default "" (category_of st m)) <$> ms)) as Hle;
      [|by rewrite length_fmap in Hle]
  end.
  apply submseteq_length, NoDup_submseteq; [apply NoDup_elements|].
  intros c (m & Hm & Hc)%Hcs. apply list_elem_of_fmap. exists m. split; [|done].
  destruct (proj1 (Hms m) Hm) as (r & Hr & Hmr).
  destruct (Hart r Hr) as (m' & n & c' & Hm' & Ho & Ht).
  assert (m' = m) as -> by congruence.
  rewrite (Magazine_category_returns st m c') in Hc;
    [|unfold category_of; by rewrite Ho].
  unfold category_of. rewrite Ho. simpl. congruence.
Qed.

Lemma topic_areas_of_magazines_witness :
  reachable sample ∧
  ∃ ms res,
    Author.magazines 0 sample = (Ret ms, sample) ∧
    Author.topic_areas 0 sample = (Ret res, sample) ∧
    (res = None ↔ ms = []) ∧
    (∀ cs, res = Some cs →
       (∀ c, c ∈ cs ↔ ∃ m, m ∈ ms ∧ Magazine.category m sample = (Ret c, sample)) ∧
       length cs ≤ length ms).
Proof.
  split; [exact sample_reachable|].
  exact (topic_areas_of_magazines sample 0 sample_reachable).
Defined.

(** X18. In a reachable state [Magazine.top_publisher()] is [None] exactly
    when [Article.all] is empty; the magazine it returns otherwise has a
    non-empty [articles()], at least as long as the [articles()] of any
    magazine. *)
Theorem top_publisher_has_most_articles st :
  reachable st →
  (Magazine.top_publisher st = (Ret None, st) ↔ Article_all st = []) ∧
  (∀ m, Magazine.top_publisher st = (Ret (Some m), st) →
     ∃ lm, Magazine.articles m st = (Ret lm, st) ∧ lm ≠ [] ∧
           ∀ x, ∃ lx, Magazine.articles x st = (Ret lx, st) ∧
                      length lx ≤ length lm).
Proof.
  intros Hwf%reachable_wf.
  pose proof (Magazine_top_publisher_returns st Hwf) as Hret.
  split.
  - split; [|intros E; by rewrite E in Hret].
    intros E. destruct (decide (Article_all st = [])) as [|Hne]; [done|].
    destruct (top_publisher_analysis st Hwf Hne) as (m & _ & _ & _ & Hm & _).
    unfold returns in Hm. congruence.
  - intros m E.
    assert (Article_all st ≠ []) as Hne.
    { intros Hnil. rewrite Hnil in Hret. unfold returns in Hret. congruence. }
    destruct (top_publisher_analysis st Hwf Hne)
      as (m0 & pre & r & post & Hm0 & Hall & Hr & _ & Hmax & _).
    assert (m0 = m) as -> by (unfold returns in Hm0; congruence).
    eexists. split; [by apply Magazine_articles_returns|]. split.
    + intros Hnil.
      assert (r ∈ filter (λ r, magazine_of st r = Some m) (Article_all st)) as Hin.
      { apply list_elem_of_filter. split; [done|].
        rewrite Hall. apply elem_of_app. right. left. }
      rewrite Hnil in Hin. by apply elem_of_nil in Hin.
    + intros x. eexists. split; [by apply Magazine_articles_returns|].
      specialize (Hmax x). unfold article_count in Hmax. lia.
Qed.

Lemma top_publisher_has_most_articles_witness :
  reachable sample ∧
  (Magazine.top_publisher sample = (Ret None, sample) ↔ Article_all sample = []) ∧
  (∀ m, Magazine.top_publisher sample = (Ret (Some m), sample) →
     ∃ lm, Magazine.articles m sample = (Ret lm, sample) ∧ lm ≠ [] ∧
           ∀ x, ∃ lx, Magazine.articles x sample = (Ret lx, sample) ∧
                      length lx ≤ length lm).
Proof.
  split; [exact sample_reachable|].
  exact (top_publisher_has_most_articles sample sample_reachable).
Defined.

(** ** Identity *)

(** X19. In a reachable state no instance is registered twice and no
    instance is in two of the lists [Article.all], [Author.all] and
    [Magazine.all]. *)
Theorem registries_disjoint st :
  reachable st →
  NoDup (Article_all st ++ Author_all st ++ Magazine_all st).
Proof.
  intros Hwf%reachable_wf.
  assert (∀ c c' a, c ≠ c' → a ∈ registry c st → a ∉ registry c' st) as Hdis.
  { intros c c' a Hne (o & Ho & Hc)%(wf_reg _ Hwf) (o' & Ho' & Hc')%(wf_reg _ Hwf).
    congruence. }
  apply NoDup_app. split; [apply (wf_nodup _ Hwf CArticle)|]. split.
  - intros a Ha [Hb|Hb]%elem_of_app.
    + by apply (Hdis CArticle CAuthor a).
    + by apply (Hdis CArticle CMagazine a).
  - apply NoDup_app. split; [apply (wf_nodup _ Hwf CAuthor)|].
    split; [|apply (wf_nodup _ Hwf CMagazine)].
    intros a Ha. by apply (Hdis CAuthor CMagazine a).
Qed.

Lemma registries_disjoint_witness :
  reachable sample ∧
  NoDup (Article_all sample ++ Author_all sample ++ Magazine_all sample).
Proof.
  split; [exact sample_reachable|].
  exact (registries_disjoint sample sample_reachable).
Defined.

(** ** The order of the checks of [Article] *)

(** X20. When [Article(author, magazine, title)] raises in a reachable
    state, the message is that of the first check that fails, in the order
    author, magazine, type of the title, length of the title: with a bad
    author it is about the author whatever the other arguments are. *)
Theorem Article_construction_errors st author magazine title e st' :
  reachable st →
  Article.__init__ author magazine title st = (Raise e, st') →
  (¬ registered CAuthor st author →
     e = Exception "Author must be an instance of Author class") ∧
  (registered CAuthor st author → ¬ registered CMagazine st magazine →
     e = Exception "Magazine must be an instance of Magazine class") ∧
  (registered CAuthor st author → registered CMagazine st magazine →
     (∀ s, title ≠ VStr s) → e = Exception "Title must be a string") ∧
  (registered CAuthor st author → registered CMagazine st magazine →
     (∃ s, title = VStr s) →
     e = Exception "Title must be between 5 and 50 characters inclusive").
Proof.
  intros Hwf%reachable_wf. unfold Article.__init__. unfold_m.
  assert (∀ c v, instance_of c v (heap st) = None → ¬ registered c st v) as Hnone.
  { intros c v Hn (a & -> & Ha%(wf_reg _ Hwf)).
    eapply instance_of_None in Hn; [|done]. done. }
  assert (∀ c v a, instance_of c v (heap st) = Some a → registered c st v) as Hsome.
  { intros c v a [-> Ha]%instance_of_Some. exists a. split; [done|].
    by apply (wf_reg _ Hwf). }
  destruct (instance_of CAuthor author (heap st)) as [a|] eqn:Ea.
  2:{ apply Hnone in Ea. intros [= <- <-]. by split_and!. }
  apply Hsome in Ea.
  destruct (instance_of CMagazine magazine (heap st)) as [m|] eqn:Em.
  2:{ apply Hnone in Em. intros [= <- <-]. by split_and!. }
  apply Hsome in Em.
  destruct title as [| | |t|];
    try (intros [= <- <-]; split_and!; [done|done|done|by intros _ _ [? [=]]]).
  destruct (negb _); [|done].
  intros [= <- <-]. split_and!; [done|done| |done].
  intros _ _ H. by destruct (H t).
Qed.

Lemma Article_construction_errors_witness :
  reachable sample ∧
  Article.__init__ (VRef 1) VNone (VStr "Hey") sample
  = (Raise (Exception "Author must be an instance of Author class"), sample) ∧
  (¬ registered CAuthor sample (VRef 1) →
     Exception "Author must be an instance of Author class"
     = Exception "Author must be an instance of Author class") ∧
  (registered CAuthor sample (VRef 1) → ¬ registered CMagazine sample VNone →
     Exception "Author must be an instance of Author class"
     = Exception "Magazine must be an instance of Magazine class") ∧
  (registered CAuthor sample (VRef 1) → registered CMagazine sample VNone →
     (∀ s, VStr "Hey" ≠ VStr s) →
     Exception "Author must be an instance of Author class"
     = Exception "Title must be a string") ∧
  (registered CAuthor sample (VRef 1) → registered CMagazine sample VNone →
     (∃ s, VStr "Hey" = VStr s) →
     Exception "Author must be an instance of Author class"
     = Exception "Title must be between 5 and 50 characters inclusive").
Proof.
  split; [exact sample_reachable|]. split; [reflexivity|].
  exact (Article_construction_errors sample (VRef 1) VNone (VStr "Hey") _ sample
           sample_reachable eq_refl).
Defined.

(** X21. In a reachable state [magazine.articles()] returns the articles of
    [Article.all] whose magazine is [self], no others, each once and in the
    order of [Article.all]; a magazine that is not registered has none. *)
Theorem Magazine_articles_exact st self :
  reachable st →
  ∃ l, Magazine.articles self st = (Ret l, st) ∧
       (∀ r, r ∈ l ↔ r ∈ Article_all st ∧ Article.magazine r st = (Ret self, st)) ∧
       l `sublist_of` Article_all st ∧ NoDup l ∧
       (self ∉ Magazine_all st → l = []).
Proof.
  intros Hwf%reachable_wf. eexists.
  split; [by apply Magazine_articles_returns|].
  assert (∀ r, r ∈ filter (λ r, magazine_of st r = Some self) (Article_all st)
               ↔ r ∈ Article_all st ∧ Article.magazine r st = (Ret self, st)) as Hin.
  { intros r. rewrite list_elem_of_filter. split.
    - intros [Hm Hr]. split; [done|]. by apply Article_magazine_returns.
    - intros [Hr Hm]. split; [|done].
      destruct (wf_magazine_of st r Hwf Hr) as (m & Hm' & _).
      rewrite (Article_magazine_returns st r m Hm') in Hm. congruence. }
  split; [exact Hin|]. split; [apply sublist_filter|].
  split; [apply NoDup_filter, (wf_nodup _ Hwf CArticle)|].
  intros Hself. apply elem_of_nil_inv. intros r [Hm Hr]%list_elem_of_filter.
  destruct (wf_magazine_of st r Hwf Hr) as (m & Hm' & Hreg).
  apply Hself. congruence.
Qed.

Lemma Magazine_articles_exact_witness :
  reachable sample ∧
  ∃ l, Magazine.articles 1 sample = (Ret l, sample) ∧
       (∀ r, r ∈ l ↔ r ∈ Article_all sample ∧
                     Article.magazine r sample = (Ret 1, sample)) ∧
       l `sublist_of` Article_all sample ∧ NoDup l ∧
       (1 ∉ Magazine_all sample → l = []).
Proof.
  split; [exact sample_reachable|].
  exact (Magazine_articles_exact sample 1 sample_reachable).
Defined.
